(** * Plugin manifest builder ([.reaction/run/loadPlugins.mjs])

    A shallow embedding of the plugin loader of the Reaction application:
    discovery of the plugin directories of the three tiers, computation of
    the import paths, the dependency installation side effect and the
    emission of the two generated import files.

    The JavaScript strings are [string]s, arrays are [list]s, the files the
    loader writes live in a [gmap string string], and the effects of the
    loader (logging, running a shell command, writing files, terminating
    the process) are threaded through a small state-and-exit monad.

    A second part embeds [createTitle] and [createHandle] of the product
    methods, which name the copies of a product, over the list of the
    documents of the collection. *)

From Stdlib Require Import Ascii.
From stdpp Require Import base strings list gmap pretty.

(** ** JavaScript string primitives used by the loader *)

Module JS.

(** [s.startsWith(p)] *)
Fixpoint startsWith (p s : string) : bool :=
  match p, s with
  | EmptyString, _ => true
  | String a p', String b s' => if decide (a = b) then startsWith p' s' else false
  | String _ _, EmptyString => false
  end.

(** [s.slice(n)] for [0 <= n] *)
Fixpoint slice (n : nat) (s : string) : string :=
  match n, s with
  | O, _ => s
  | S n', String _ s' => slice n' s'
  | S _, EmptyString => EmptyString
  end.

(** [s.includes(p)]: [p] occurs somewhere in [s]. *)
Fixpoint includes (p s : string) : bool :=
  startsWith p s ||
  match s with
  | EmptyString => false
  | String _ s' => includes p s'
  end.

(** [s.split(sep)[0]]: the part of [s] before the first occurrence of
    [sep], the whole of [s] when there is none. *)
Fixpoint splitHead (sep s : string) : string :=
  if startsWith sep s then EmptyString
  else match s with
       | EmptyString => EmptyString
       | String c s' => String c (splitHead sep s')
       end.

(** [s.replace(pat, rep)] with a string pattern: only the FIRST occurrence
    of [pat] is replaced. *)
Fixpoint replace (pat rep s : string) : string :=
  if startsWith pat s then rep +:+ slice (String.length pat) s
  else match s with
       | EmptyString => EmptyString
       | String c s' => String c (replace pat rep s')
       end.

(** [s.replace(/\\/g, '/')]: every backslash becomes a forward slash. *)
Fixpoint replaceBackslashes (s : string) : string :=
  match s with
  | EmptyString => EmptyString
  | String c s' =>
      String (if decide (c = "092"%char) then "/"%char else c)
             (replaceBackslashes s')
  end.

(** [d.charAt(0) === '.'] *)
Definition charAt0IsDot (d : string) : bool :=
  match d with
  | String c _ => bool_decide (c = "."%char)
  | EmptyString => false
  end.

(** [_.includes(array, value)] of lodash on an array of strings. *)
Definition arrayIncludes (xs : list string) (x : string) : bool :=
  bool_decide (x ∈ xs).

(** [_.reject(xs, pred)] of lodash: the elements for which [pred] is false,
    in their order. *)
Definition reject {A} (pred : A → bool) (xs : list A) : list A :=
  List.filter (λ x, negb (pred x)) xs.

End JS.

(** ** Node's [path] module, POSIX flavour

    [path.resolve] and [path.relative] are described on path segments: a
    resolved path is the list of its segments below the root. *)

Module Path.

(** [s.split('/')] *)
Fixpoint segments (s : string) : list string :=
  match s with
  | EmptyString => [EmptyString]
  | String c s' =>
      if decide (c = "/"%char) then EmptyString :: segments s'
      else match segments s' with
           | [] => [String c EmptyString]
           | seg :: rest => String c seg :: rest
           end
  end.

(** [segs.join('/')] *)
Fixpoint join (segs : list string) : string :=
  match segs with
  | [] => EmptyString
  | [seg] => seg
  | seg :: rest => seg +:+ "/" +:+ join rest
  end.

(** Normalisation of an absolute path: empty and [.] segments vanish, [..]
    removes the segment before it (and is dropped at the root). [stack]
    holds the segments kept so far, last one first. *)
Fixpoint normalize (stack segs : list string) : list string :=
  match segs with
  | [] => rev stack
  | seg :: rest =>
      if decide (seg = EmptyString) then normalize stack rest
      else if decide (seg = ".") then normalize stack rest
      else if decide (seg = "..") then normalize (tail stack) rest
      else normalize (seg :: stack) rest
  end.

(** Segments of [path.resolve(p)] when the working directory is [cwd]. *)
Definition resolveSegs (cwd p : string) : list string :=
  normalize []
    (segments (if JS.startsWith "/" p then p else cwd +:+ "/" +:+ p)).

(** [path.resolve(p)] *)
Definition resolve (cwd p : string) : string :=
  "/" +:+ join (resolveSegs cwd p).

Fixpoint dropCommon (xs ys : list string) : list string * list string :=
  match xs, ys with
  | x :: xs', y :: ys' =>
      if decide (x = y) then dropCommon xs' ys' else (xs, ys)
  | _, _ => (xs, ys)
  end.

(** [path.relative(from, to)] *)
Definition relative (cwd from to : string) : string :=
  if decide (from = to) then EmptyString
  else
    let '(up, down) := dropCommon (resolveSegs cwd from) (resolveSegs cwd to) in
    join (List.map (λ _, "..") up ++ down).

End Path.

(** ** The host environment and the effects of the loader *)

(** What the loader reads from its host: the working directory of the
    process, the directory listing and existence test of [./fs], the
    [disabledPlugins] entry of [pluginConfig], and the outcome of the two
    kinds of calls that can throw: running a shell command and writing to
    a file (decided from the files as they are, the destination and the
    data). The answers of the host stay the same for the length of a
    run. *)
Record Env := {
  cwd : string;
  getDirectories : string → list string;
  fsExists : string → bool;
  disabledPlugins : list string;
  execSyncOk : string → bool;
  fsWriteOk : gmap string string → string → string → bool
}.

Inductive LogEntry :=
  | LogInfo (msg : string)
  | LogError (msg : string).

(** The part of the world the loader changes: the files it writes, the
    lines it logs and the shell commands it has started (oldest first).
    [files] holds what the loader itself has written, under the path as
    the loader spells it: two spellings of one file are two keys, and
    what a started command does to the disk is not recorded. *)
Record World := {
  files : gmap string string;
  logs : list LogEntry;
  execs : list string
}.

(** A call returns, throws an exception, or ends the process
    ([process.exit(code)]). *)
Inductive Outcome (A : Type) :=
  | Returned (a : A)
  | Thrown
  | Exited (code : nat).
Arguments Returned {A} a.
Arguments Thrown {A}.
Arguments Exited {A} code.

Definition M (A : Type) : Type := World → Outcome A * World.

Definition ret {A} (a : A) : M A := λ w, (Returned a, w).

Definition bind {A B} (m : M A) (k : A → M B) : M B :=
  λ w, match m w with
       | (Returned a, w') => k a w'
       | (Thrown, w') => (Thrown, w')
       | (Exited c, w') => (Exited c, w')
       end.

#[global] Instance M_ret : MRet M := @ret.
#[global] Instance M_bind : MBind M := λ A B k m, bind m k.

(** [try { body } catch (e) { handler }]; no handler of the loader looks
    at [e]. *)
Definition tryCatch {A} (body handler : M A) : M A :=
  λ w, match body w with
       | (Thrown, w') => handler w'
       | r => r
       end.

(** [process.exit(code)] *)
Definition processExit {A} (code : nat) : M A := λ w, (Exited code, w).

(** [xs.forEach(body)], the loop body acting on the state [S] of the
    variables it updates. *)
Fixpoint forEach {A S} (xs : list A) (body : A → S → M S) (s : S) : M S :=
  match xs with
  | [] => ret s
  | x :: xs' => s' ← body x s; forEach xs' body s'
  end.

(** Modelled from the spec: [Log.info] of [./logger], which is missing; a
    call adds one line of its level to the log. *)
Definition Log_info (msg : string) : M unit :=
  λ w, (Returned tt,
        {| files := files w; logs := logs w ++ [LogInfo msg]; execs := execs w |}).

(** Modelled from the spec: [Log.error] of the missing [./logger], one
    line of level error. *)
Definition Log_error (msg : string) : M unit :=
  λ w, (Returned tt,
        {| files := files w; logs := logs w ++ [LogError msg]; execs := execs w |}).

Definition nl : string := String "010"%char EmptyString.

(** The message at the top of the plugins import file. *)
Definition importFileMessage : string :=
  nl +:+ "/**" +:+ nl
  +:+ " * ***** DO NOT EDIT THIS FILE MANUALLY *****" +:+ nl
  +:+ " * This file is generated automatically by the Reaction" +:+ nl
  +:+ " * plugin loader and will be reset at each startup." +:+ nl
  +:+ " */" +:+ nl.

(** The line appended for one import path. *)
Definition importLine (importPath : string) : string :=
  "import '" +:+ importPath +:+ "';" +:+ nl.

(** The three path arrays [getImportPaths] returns. *)
Record ImportPaths := {
  client : list string;
  server : list string;
  registry : list string
}.

Inductive Tier := Core | Included | Custom.

Section Loader.
Context (env : Env).

(** [fs.writeFileSync(file, data)]: replaces the content of [file]; a
    call that throws leaves the files as they were. *)
Definition writeFileSync (file data : string) : M unit :=
  λ w, if fsWriteOk env (files w) file data
       then (Returned tt,
             {| files := <[file := data]> (files w);
                logs := logs w; execs := execs w |})
       else (Thrown, w).

(** [fs.appendFileSync(file, data)]: adds [data] at the end of [file],
    creating it when it is missing. *)
Definition appendFileSync (file data : string) : M unit :=
  λ w, if fsWriteOk env (files w) file data
       then (Returned tt,
             {| files := <[file := default EmptyString (files w !! file) +:+ data]> (files w);
                logs := logs w; execs := execs w |})
       else (Thrown, w).

(** [childProcess.execSync(cmd, { stdio: 'inherit' })]: throws when the
    command exits non-zero. The command is recorded in [execs]; the
    files it creates itself ([node_modules] below the plugin directory)
    are outside [files]. *)
Definition execSync (cmd : string) : M unit :=
  λ w, let w' := {| files := files w; logs := logs w;
                    execs := execs w ++ [cmd] |} in
       if execSyncOk env cmd then (Returned tt, w') else (Thrown, w').

Definition generateImportsFile (file : string) (imports : list string) : M unit :=
  (* create/reset imports file *)
  tryCatch
    (writeFileSync file EmptyString;;
     writeFileSync file importFileMessage)
    (Log_error ("Failed to reset plugins file at " +:+ file);;
     processExit 1);;
  (* populate plugins file with imports *)
  forEach imports (λ importPath _,
    tryCatch
      (appendFileSync file (importLine importPath))
      (Log_error ("Failed to write to plugins file at " +:+ importPath);;
       processExit 1)) tt.

(** [path.resolve('.').split('.meteor')[0]] *)
Definition appRoot : string :=
  JS.splitHead ".meteor" (Path.resolve (cwd env) ".").

Definition getImportPath (pluginFile : string) : string :=
  let importPath := "/" +:+ Path.relative (cwd env) appRoot pluginFile in
  JS.replaceBackslashes importPath.

(** The plugin directories at a base path: those that neither start with
    a dot nor are listed in [disabledPlugins]. *)
Definition pluginDirs (baseDirPath : string) : list string :=
  JS.reject
    (λ d, JS.charAt0IsDot d || JS.arrayIncludes (disabledPlugins env) d)
    (getDirectories env baseDirPath).

Definition npmInstall (baseDirPath plugin : string) : string :=
  "cd " +:+ baseDirPath +:+ plugin +:+ " && meteor npm i".

(** The body of the loop over the plugin directories; [acc] holds the
    three arrays the body pushes to. *)
Definition pluginStep (baseDirPath plugin : string) (acc : ImportPaths)
  : M ImportPaths :=
  let clientImport := (baseDirPath +:+ plugin) +:+ "/client/index.js" in
  let serverImport := (baseDirPath +:+ plugin) +:+ "/server/index.js" in
  let registryImport := (baseDirPath +:+ plugin) +:+ "/register.js" in
  let packageDotJson := (baseDirPath +:+ plugin) +:+ "/package.json" in
  let clientImportPaths :=
    if fsExists env clientImport
    then client acc ++ [getImportPath (JS.replace "/index.js" EmptyString clientImport)]
    else client acc in
  let serverImportPaths :=
    if fsExists env serverImport
    then server acc ++ [getImportPath (JS.replace "/index.js" EmptyString serverImport)]
    else server acc in
  let registryImportPaths :=
    if fsExists env registryImport
    then registry acc ++ [getImportPath registryImport]
    else registry acc in
  let acc' := {| client := clientImportPaths;
                 server := serverImportPaths;
                 registry := registryImportPaths |} in
  if fsExists env packageDotJson then
    Log_info ("Installing dependencies for " +:+ plugin +:+ "..." +:+ nl);;
    tryCatch
      (execSync (npmInstall baseDirPath plugin))
      (Log_error ("Failed to install npm dependencies for plugin: " +:+ plugin);;
       processExit 1);;
    ret acc'
  else ret acc'.

Definition getImportPaths (baseDirPath : string) : M ImportPaths :=
  forEach (pluginDirs baseDirPath) (pluginStep baseDirPath)
    {| client := []; server := []; registry := [] |}.

(** Base plugin paths *)
Definition pluginsPath : string := appRoot +:+ "/imports/plugins/".
Definition corePlugins : string := pluginsPath +:+ "core/".
Definition includedPlugins : string := pluginsPath +:+ "included/".
Definition customPlugins : string := pluginsPath +:+ "custom/".

Definition tierPath (t : Tier) : string :=
  match t with
  | Core => corePlugins
  | Included => includedPlugins
  | Custom => customPlugins
  end.

(** The concatenations of [loadPlugins]. *)
Definition clientImports (core included custom : ImportPaths) : list string :=
  client core ++ client included ++ client custom.

Definition serverImports (core included custom : ImportPaths) : list string :=
  server core ++ server included ++ server custom
  ++ registry core ++ registry included ++ registry custom.

Definition clientFile : string := appRoot +:+ "/client/plugins.js".
Definition serverFile : string := appRoot +:+ "/server/plugins.js".

Definition loadPlugins : M unit :=
  (* get imports from each plugin directory *)
  core ← getImportPaths corePlugins;
  included ← getImportPaths includedPlugins;
  custom ← getImportPaths customPlugins;
  (* create import files on client and server and write import statements *)
  generateImportsFile clientFile (clientImports core included custom);;
  generateImportsFile serverFile (serverImports core included custom).

(** The first half of [loadPlugins]: the three tiers' import paths. *)
Definition discover : M (ImportPaths * ImportPaths * ImportPaths) :=
  core ← getImportPaths corePlugins;
  included ← getImportPaths includedPlugins;
  custom ← getImportPaths customPlugins;
  ret (core, included, custom).

End Loader.

(** ** Notions the properties are stated with *)

(** What one plugin directory contributes to the three arrays. *)
Definition pluginPaths (env : Env) (baseDirPath plugin : string) : ImportPaths :=
  {| client :=
       if fsExists env ((baseDirPath +:+ plugin) +:+ "/client/index.js")
       then [getImportPath env
               (JS.replace "/index.js" EmptyString
                  ((baseDirPath +:+ plugin) +:+ "/client/index.js"))]
       else [];
     server :=
       if fsExists env ((baseDirPath +:+ plugin) +:+ "/server/index.js")
       then [getImportPath env
               (JS.replace "/index.js" EmptyString
                  ((baseDirPath +:+ plugin) +:+ "/server/index.js"))]
       else [];
     registry :=
       if fsExists env ((baseDirPath +:+ plugin) +:+ "/register.js")
       then [getImportPath env ((baseDirPath +:+ plugin) +:+ "/register.js")]
       else [] |}.

(** What a list of plugin directories contributes, in its order. *)
Definition dirsPaths (env : Env) (baseDirPath : string) (dirs : list string)
  : ImportPaths :=
  {| client := dirs ≫= (λ p, client (pluginPaths env baseDirPath p));
     server := dirs ≫= (λ p, server (pluginPaths env baseDirPath p));
     registry := dirs ≫= (λ p, registry (pluginPaths env baseDirPath p)) |}.

Definition appendPaths (a b : ImportPaths) : ImportPaths :=
  {| client := client a ++ client b;
     server := server a ++ server b;
     registry := registry a ++ registry b |}.

Definition noPaths : ImportPaths :=
  {| client := []; server := []; registry := [] |}.

(** The world after a line was logged, after a command was started. *)
Definition logged (e : LogEntry) (w : World) : World :=
  {| files := files w; logs := logs w ++ [e]; execs := execs w |}.

Definition started (cmd : string) (w : World) : World :=
  {| files := files w; logs := logs w; execs := execs w ++ [cmd] |}.

Definition installingMsg (plugin : string) : string :=
  "Installing dependencies for " +:+ plugin +:+ "..." +:+ nl.

Definition installFailedMsg (plugin : string) : string :=
  "Failed to install npm dependencies for plugin: " +:+ plugin.

Definition resetFailedMsg (file : string) : string :=
  "Failed to reset plugins file at " +:+ file.

Definition appendFailedMsg (importPath : string) : string :=
  "Failed to write to plugins file at " +:+ importPath.

(** A plugin directory with a [package.json], and the outcome of its
    install command. *)
Definition hasPackageJson (env : Env) (baseDirPath plugin : string) : bool :=
  fsExists env ((baseDirPath +:+ plugin) +:+ "/package.json").

Definition installOk (env : Env) (baseDirPath plugin : string) : bool :=
  execSyncOk env (npmInstall baseDirPath plugin).

(** Every listed plugin that has a [package.json] installs. *)
Definition installsPass (env : Env) (base : string) (dirs : list string) : Prop :=
  Forall (λ p, hasPackageJson env base p = true → installOk env base p = true) dirs.

(** The install commands of the listed plugins. *)
Definition installCommands (env : Env) (base : string) (dirs : list string)
  : list string :=
  npmInstall base <$> List.filter (hasPackageJson env base) dirs.

(** The import paths of a tier, and the two manifests of the host. *)
Definition tierImportPaths (env : Env) (t : Tier) : ImportPaths :=
  dirsPaths env (tierPath env t) (pluginDirs env (tierPath env t)).

Definition clientManifest (env : Env) : list string :=
  clientImports (tierImportPaths env Core) (tierImportPaths env Included)
    (tierImportPaths env Custom).

Definition serverManifest (env : Env) : list string :=
  serverImports (tierImportPaths env Core) (tierImportPaths env Included)
    (tierImportPaths env Custom).

(** An install command of a plugin directory that passed the filter and
    has a [package.json]. *)
Definition eligibleInstall (env : Env) (cmd : string) : Prop :=
  ∃ t p, p ∈ pluginDirs env (tierPath env t) ∧
         hasPackageJson env (tierPath env t) p = true ∧
         cmd = npmInstall (tierPath env t) p.

(** From [w] to [w'] only installs of eligible plugins were started. *)
Definition onlyEligibleInstalls (env : Env) (w w' : World) : Prop :=
  ∃ new, execs w' = execs w ++ new ∧ Forall (eligibleInstall env) new.

(** The install of plugin [q] of tier [t] failed and was the last thing
    the run did: its command is the last one started and its error the
    last line logged. *)
Definition installFailedLast (env : Env) (t : Tier) (q : string) (w' : World)
  : Prop :=
  q ∈ pluginDirs env (tierPath env t) ∧
  hasPackageJson env (tierPath env t) q = true ∧
  installOk env (tierPath env t) q = false ∧
  last (logs w') = Some (LogError (installFailedMsg q)) ∧
  last (execs w') = Some (npmInstall (tierPath env t) q).

(** Every install of every tier passes. *)
Definition allInstallsPass (env : Env) : Prop :=
  ∀ t, installsPass env (tierPath env t) (pluginDirs env (tierPath env t)).

(** A directory name the filter of [getImportPaths] rejects. *)
Definition excluded (env : Env) (d : string) : bool :=
  JS.charAt0IsDot d || JS.arrayIncludes (disabledPlugins env) d.

(** The host with the directory [d] taken out of every listing. *)
Definition withoutDir (d : string) (env : Env) : Env :=
  {| cwd := cwd env;
     getDirectories := λ base,
       List.filter (λ x, negb (bool_decide (x = d))) (getDirectories env base);
     fsExists := fsExists env;
     disabledPlugins := disabledPlugins env;
     execSyncOk := execSyncOk env;
     fsWriteOk := fsWriteOk env |}.

(** The content of a generated file for a manifest. *)
Definition concatLines (ls : list string) : string :=
  foldr String.append EmptyString ls.

Definition render (imports : list string) : string :=
  importFileMessage +:+ concatLines (importLine <$> imports).

(** Manifest entries together with the tier and the kind of artifact they
    come from. *)
Inductive Kind := EntryPoint | Registration.

Record Entry := {
  entryTier : Tier;
  entryKind : Kind;
  entryPath : string
}.

Definition labelled (t : Tier) (k : Kind) (paths : list string) : list Entry :=
  (λ p, {| entryTier := t; entryKind := k; entryPath := p |}) <$> paths.

Definition clientEntries (core included custom : ImportPaths) : list Entry :=
  labelled Core EntryPoint (client core)
  ++ labelled Included EntryPoint (client included)
  ++ labelled Custom EntryPoint (client custom).

Definition serverEntries (core included custom : ImportPaths) : list Entry :=
  labelled Core EntryPoint (server core)
  ++ labelled Included EntryPoint (server included)
  ++ labelled Custom EntryPoint (server custom)
  ++ labelled Core Registration (registry core)
  ++ labelled Included Registration (registry included)
  ++ labelled Custom Registration (registry custom).

Definition tierRank (t : Tier) : nat :=
  match t with Core => 0 | Included => 1 | Custom => 2 end.

Definition kindRank (k : Kind) : nat :=
  match k with EntryPoint => 0 | Registration => 1 end.

(** Every entry of a lower tier stands before every entry of a higher one. *)
Definition tierPrecedence (m : list Entry) : Prop :=
  ∀ i j a b, m !! i = Some a → m !! j = Some b →
    tierRank (entryTier a) < tierRank (entryTier b) → i < j.

(** The same, among the entries of one kind only. *)
Definition tierPrecedenceWithin (k : Kind) (m : list Entry) : Prop :=
  ∀ i j a b, m !! i = Some a → m !! j = Some b →
    entryKind a = k → entryKind b = k →
    tierRank (entryTier a) < tierRank (entryTier b) → i < j.

(** Every entry point stands before every registration file. *)
Definition entryPointsFirst (m : list Entry) : Prop :=
  ∀ i j a b, m !! i = Some a → m !! j = Some b →
    entryKind a = EntryPoint → entryKind b = Registration → i < j.

(** Entries in the order of a rank: a lower rank stands before a higher. *)
Definition orderedBy (rank : Entry → nat) (m : list Entry) : Prop :=
  ∀ i j a b, m !! i = Some a → m !! j = Some b → rank a < rank b → i < j.

(** The order of the server manifest: kind first, tier second. *)
Definition entryRank (e : Entry) : nat :=
  3 * kindRank (entryKind e) + tierRank (entryTier e).

(** An import path that starts with a slash and holds no backslash. *)
Definition wellFormedPath (p : string) : Prop :=
  JS.startsWith "/" p = true ∧
  JS.includes (String "092"%char EmptyString) p = false.

(** ** Example hosts *)

Definition emptyWorld : World := {| files := ∅; logs := []; execs := [] |}.

(** A world in which an earlier run left a client file behind. *)
Definition staleWorld : World :=
  {| files := {[ "/home/app//client/plugins.js" := "import '/gone';" ]};
     logs := []; execs := [] |}.

(** An application at [/home/app], started from its build directory, with
    the given plugin tree. *)
Definition hostOf (core included custom : list string) (present : list string)
    (disabled : list string) (execOk : string → bool)
    (writeOk : gmap string string → string → string → bool) : Env :=
  {| cwd := "/home/app/.meteor/local/build";
     getDirectories := λ base,
       if decide (base = "/home/app//imports/plugins/core/") then core
       else if decide (base = "/home/app//imports/plugins/included/") then included
       else if decide (base = "/home/app//imports/plugins/custom/") then custom
       else [];
     fsExists := λ p, bool_decide (p ∈ present);
     disabledPlugins := disabled;
     execSyncOk := execOk;
     fsWriteOk := writeOk |}.

Definition demoFiles : list string :=
  [ "/home/app//imports/plugins/core/A/client/index.js";
    "/home/app//imports/plugins/core/A/server/index.js";
    "/home/app//imports/plugins/core/A/register.js";
    "/home/app//imports/plugins/core/A/package.json";
    "/home/app//imports/plugins/core/B/server/index.js";
    "/home/app//imports/plugins/core/B/package.json";
    "/home/app//imports/plugins/core/.git/package.json";
    "/home/app//imports/plugins/included/C/client/index.js";
    "/home/app//imports/plugins/included/C/server/index.js" ].

(** Core plugins [A] (client, server, registration, package.json), [B]
    (disabled) and a hidden [.git]; included plugin [C]. *)
Definition demoHost : Env :=
  hostOf ["A"; "B"; ".git"] ["C"] [] demoFiles ["B"] (λ _, true) (λ _ _ _, true).

(** The same tree, the install of [A] failing. *)
Definition installFailsHost : Env :=
  hostOf ["A"; "B"; ".git"] ["C"] [] demoFiles ["B"] (λ _, false) (λ _ _ _, true).

(** The same tree, every append of an import line failing (the file can
    be reset). *)
Definition appendFailsHost : Env :=
  hostOf ["A"; "B"; ".git"] ["C"] [] demoFiles ["B"] (λ _, true)
    (λ _ _ data, negb (JS.startsWith "import" data)).

(** The same tree, the server file not writable. *)
Definition serverReadOnlyHost : Env :=
  hostOf ["A"; "B"; ".git"] ["C"] [] demoFiles ["B"] (λ _, true)
    (λ _ file _, negb (bool_decide (file = "/home/app//server/plugins.js"))).

(** A core plugin whose directory is called [index.js]. *)
Definition indexJsHost : Env :=
  hostOf ["index.js"] [] []
    [ "/home/app//imports/plugins/core/index.js/client/index.js" ]
    [] (λ _, true) (λ _ _ _, true).

(** A core plugin [foo] with a client entry, as in the path example. *)
Definition fooHost : Env :=
  hostOf ["foo"] [] []
    [ "/home/app//imports/plugins/core/foo/client/index.js";
      "/home/app//imports/plugins/core/foo/register.js" ]
    [] (λ _, true) (λ _ _ _, true).

(** The scenario of the specification: core plugins [A] (client and
    server) and [B] (server only, disabled), included plugin [C] (client
    only). *)
Definition scenarioHost : Env :=
  hostOf ["A"; "B"] ["C"] []
    [ "/home/app//imports/plugins/core/A/client/index.js";
      "/home/app//imports/plugins/core/A/server/index.js";
      "/home/app//imports/plugins/core/B/server/index.js";
      "/home/app//imports/plugins/included/C/client/index.js" ]
    ["B"] (λ _, true) (λ _ _ _, true).

(** ** Notions for the traces and the import paths of a run *)

(** The lines logged before the installs of the listed plugins. *)
Definition installLines (env : Env) (base : string) (dirs : list string)
  : list LogEntry :=
  (λ p, LogInfo (installingMsg p)) <$> List.filter (hasPackageJson env base) dirs.

(** The tiers [loadPlugins] goes through before tier [t]. *)
Definition tiersBefore (t : Tier) : list Tier :=
  match t with
  | Core => []
  | Included => [Core]
  | Custom => [Core; Included]
  end.

Definition allTiers : list Tier := [Core; Included; Custom].

(** The install commands and lines of whole tiers, in their order. *)
Definition tiersCommands (env : Env) (ts : list Tier) : list string :=
  ts ≫= (λ t, installCommands env (tierPath env t) (pluginDirs env (tierPath env t))).

Definition tiersLines (env : Env) (ts : list Tier) : list LogEntry :=
  ts ≫= (λ t, installLines env (tierPath env t) (pluginDirs env (tierPath env t))).

(** The directory name of a tier below [imports/plugins]. *)
Definition tierName (t : Tier) : string :=
  match t with
  | Core => "core"
  | Included => "included"
  | Custom => "custom"
  end.

(** The import path of an artifact [rest] of plugin [plugin] of tier [t],
    written out. *)
Definition pluginImportPath (t : Tier) (plugin rest : string) : string :=
  "/imports/plugins/" +:+ tierName t +:+ "/"
  +:+ JS.replaceBackslashes plugin +:+ rest.

(** A path segment [path.resolve] keeps as it is. *)
Definition plainSegment (seg : string) : Prop :=
  seg ≠ EmptyString ∧ seg ≠ "." ∧ seg ≠ "..".

(** Every write is accepted. *)
Definition alwaysWritable (env : Env) : Prop :=
  ∀ m file data, fsWriteOk env m file data = true.

(** The demo tree on a disk that fills up: the import lines of the core
    tier can be appended, those of the included tier cannot. *)
Definition diskFullHost : Env :=
  hostOf ["A"; "B"; ".git"] ["C"] [] demoFiles ["B"] (λ _, true)
    (λ _ _ data, negb (JS.startsWith "import '/imports/plugins/included" data)).

(** The host with [d] added to the disabled plugins. *)
Definition disable (d : string) (env : Env) : Env :=
  {| cwd := cwd env;
     getDirectories := getDirectories env;
     fsExists := fsExists env;
     disabledPlugins := d :: disabledPlugins env;
     execSyncOk := execSyncOk env;
     fsWriteOk := fsWriteOk env |}.

(** * Titles and handles of product copies ([createTitle], [createHandle])

    The two functions look for a title, or a handle, that no product of
    the [Products] collection has yet, by adding [-copy] or a number to
    the one they are given. The collection is the list of its documents;
    the functions only count in it. *)

Module Regex.

(** A decimal digit, the [\d] of the patterns. *)
Definition isDigit (c : ascii) : bool :=
  (48 <=? nat_of_ascii c)%nat && (nat_of_ascii c <=? 57)%nat.

Fixpoint allDigits (s : string) : bool :=
  match s with
  | EmptyString => true
  | String c s' => isDigit c && allDigits s'
  end.

(** The texts the patterns accept up to the end of the input:
    [\d+], [-], [-copy] and [-copy-\d+]. *)
Definition digits (x : string) : bool :=
  negb (bool_decide (x = EmptyString)) && allDigits x.

Definition dash (x : string) : bool := bool_decide (x = "-").

Definition copy (x : string) : bool := bool_decide (x = "-copy").

Definition copyNumber (x : string) : bool :=
  JS.startsWith "-copy-" x && digits (JS.slice 6 x).

(** [s.match(/R$/)] for a pattern [R$] that has to reach the end of the
    input: the match is the leftmost end of [s] that [R] accepts. *)
Fixpoint matchEnd (accepts : string → bool) (s : string) : option string :=
  if accepts s then Some s
  else match s with
       | EmptyString => None
       | String _ s' => matchEnd accepts s'
       end.

(** [s.replace(/R$/, "")]: that match is cut off. *)
Fixpoint removeEnd (accepts : string → bool) (s : string) : string :=
  if accepts s then EmptyString
  else match s with
       | EmptyString => EmptyString
       | String c s' => String c (removeEnd accepts s')
       end.

End Regex.

(** [Number(ds)] for a text [ds] of decimal digits. *)
Fixpoint numberFrom (acc : N) (ds : string) : N :=
  match ds with
  | EmptyString => acc
  | String c ds' =>
      numberFrom (10 * acc + N.of_nat (nat_of_ascii c - 48)) ds'
  end.

Definition numberOf (ds : string) : N := numberFrom 0 ds.

(** Up to here the numbers of JavaScript are exact integers and print as
    their decimal digits. *)
Definition maxSafeInteger : N := 2 ^ 53 - 1.

(** A document of [Products], as far as the two functions look at it. *)
Record Product := {
  prodId : string;
  prodTitle : option string;
  prodHandle : option string
}.

(** [Products.find({ title }).count()] *)
Definition countTitle (Products : list Product) (title : string) : N :=
  N.of_nat (length (List.filter
    (λ p, bool_decide (prodTitle p = Some title)) Products)).

(** [Products.find({ title, _id: { $nin: [productId] } }).count()] *)
Definition countTitleOfOthers (Products : list Product) (title productId : string)
  : N :=
  N.of_nat (length (List.filter
    (λ p, bool_decide (prodTitle p = Some title)
          && negb (bool_decide (prodId p = productId))) Products)).

(** [Products.find({ handle, _id: { $nin: [productId] } }).count()] *)
Definition countHandleOfOthers (Products : list Product) (handle productId : string)
  : N :=
  N.of_nat (length (List.filter
    (λ p, bool_decide (prodHandle p = Some handle)
          && negb (bool_decide (prodId p = productId))) Products)).

(** What a call comes to: a name, a number beyond the safe integers (the
    embedding stops there), or a recursion that has not ended when the
    fuel is used up. *)
Inductive Naming :=
  | Named (name : string)
  | BeyondSafeIntegers
  | StillRecursing.

(** The number printed into a name. Above [maxSafeInteger] the source
    goes on with rounded numbers; the embedding gives no text there, and
    the call comes to [BeyondSafeIntegers]. *)
Definition printNumber (n : N) : option string :=
  if decide (n ≤ maxSafeInteger)%N then Some (pretty n) else None.

(** The part [createTitle] and [createHandle] have in common, from the
    match of the copy suffix to the new name: [name] is the title or
    handle, [count] the number of other products that have it. *)
Definition copyName (name : string) (count : N) : option string :=
  (* copySuffix "-copy-number" suffix of product *)
  let copySuffix :=
    match Regex.matchEnd Regex.copyNumber name with
    | Some m => Some m
    | None => Regex.matchEnd Regex.copy name
    end in
  let numberSuffix : N :=
    match copySuffix with
    | Some m =>
        let n := match Regex.matchEnd Regex.digits m with
                 | Some ds => numberOf ds
                 | None => 0%N
                 end in
        if decide (n = 0%N) then 1%N else n
    | None => 0%N
    end in
  let nameString :=
    match copySuffix with
    | Some _ => Regex.removeEnd Regex.dash (Regex.removeEnd Regex.digits name)
    | None => name
    end in
  if decide (0 < count)%N then
    if decide (0 < numberSuffix)%N then
      number ← printNumber (numberSuffix + count)%N;
      Some (nameString +:+ "-" +:+ number)
    else
      (* first copy will be "...-copy", second: "...-copy-2" *)
      if decide (1 < count)%N then
        number ← printNumber count;
        Some (nameString +:+ "-copy" +:+ "-" +:+ number)
      else Some (nameString +:+ "-copy" +:+ EmptyString)
  else Some name.

Fixpoint createTitle (fuel : nat) (Products : list Product)
    (newTitle : option string) (productId : string) : Naming :=
  match fuel with
  | O => StillRecursing
  | S fuel' =>
      (* exception product._id needed for cases then double triggering happens *)
      let title := default EmptyString newTitle in
      let titleCount := countTitleOfOthers Products title productId in
      match copyName title titleCount with
      | None => BeyondSafeIntegers
      | Some title' =>
          (* we should check again if there are any new matches with DB *)
          if decide (countTitle Products title' ≠ 0%N)
          then createTitle fuel' Products (Some title') productId
          else Named title'
      end
  end.

Fixpoint createHandle (fuel : nat) (Products : list Product)
    (productHandle : option string) (productId : string) : Naming :=
  match fuel with
  | O => StillRecursing
  | S fuel' =>
      let handle := default EmptyString productHandle in
      let handleCount := countHandleOfOthers Products handle productId in
      match copyName handle handleCount with
      | None => BeyondSafeIntegers
      | Some handle' =>
          let newHandleCount := countHandleOfOthers Products handle' productId in
          if decide (newHandleCount ≠ 0%N)
          then createHandle fuel' Products (Some handle') productId
          else Named handle'
      end
  end.

(** ** Notions for the names of copies *)

(** The number a text of digits stands for in a copy suffix: zero counts
    as one. *)
Definition copyNumberOf (ds : string) : N :=
  if decide (numberOf ds = 0%N) then 1%N else numberOf ds.

(** A name that ends neither in [-copy] nor in [-copy-] and digits. *)
Definition plainName (name : string) : Prop :=
  (∀ b, name ≠ b +:+ "-copy") ∧
  (∀ b ds, Regex.digits ds = true → name ≠ b +:+ "-copy-" +:+ ds).

(** The recursion of [createTitle] and [createHandle], the two counts
    left open. *)
Fixpoint createName (fuel : nat) (countOthers countAgain : string → N)
    (name : string) : Naming :=
  match fuel with
  | O => StillRecursing
  | S fuel' =>
      match copyName name (countOthers name) with
      | None => BeyondSafeIntegers
      | Some name' =>
          if decide (countAgain name' ≠ 0%N)
          then createName fuel' countOthers countAgain name'
          else Named name'
      end
  end.

(** Is [x] the copy of [base] with a number above [n]? *)
Definition laterCopy (base : string) (n : N) (x : string) : bool :=
  match Regex.matchEnd Regex.copyNumber x with
  | Some m =>
      bool_decide (x = base +:+ m)
      && (n <? copyNumberOf (JS.slice 6 m))%N
  | None => false
  end.

(** A small collection: a product [p1] called [Shirt], two copies. *)
Definition shirts : list Product :=
  [ {| prodId := "p1"; prodTitle := Some "Shirt"; prodHandle := Some "shirt" |};
    {| prodId := "p2"; prodTitle := Some "Shirt-copy";
       prodHandle := Some "shirt-copy" |};
    {| prodId := "p3"; prodTitle := Some "Shirt-copy-2";
       prodHandle := Some "shirt-copy-2" |} ].

(** * The generated files, as a reader of them sees them *)

Definition lineFeed : ascii := "010"%char.

(** The warning at the head of a generated file, written out. *)
Definition generatedWarning : string :=
  String lineFeed
    ("/**" +:+ String lineFeed
    (" * ***** DO NOT EDIT THIS FILE MANUALLY *****" +:+ String lineFeed
    (" * This file is generated automatically by the Reaction" +:+ String lineFeed
    (" * plugin loader and will be reset at each startup." +:+ String lineFeed
    (" */" +:+ String lineFeed EmptyString))))).

(** The import statement of an import path, without its line break. *)
Definition importStatement (importPath : string) : string :=
  "import '" +:+ importPath +:+ "';".

(** The text of a generated file that lists the given import paths: the
    warning, then for each path its import statement and a line feed. *)
Definition manifestText (paths : list string) : string :=
  generatedWarning +:+
  concatLines ((λ p, importStatement p +:+ String lineFeed EmptyString) <$> paths).

(** The pieces of a text between the occurrences of a separator; a text
    that ends with the separator has the empty text as its last piece. *)
Fixpoint splitOn (sep : ascii) (s : string) : list string :=
  match s with
  | EmptyString => [EmptyString]
  | String c s' =>
      if decide (c = sep) then EmptyString :: splitOn sep s'
      else match splitOn sep s' with
           | [] => [String c EmptyString]
           | piece :: rest => String c piece :: rest
           end
  end.

(** Does the character occur in the text? *)
Fixpoint hasChar (c : ascii) (s : string) : bool :=
  match s with
  | EmptyString => false
  | String x s' => bool_decide (x = c) || hasChar c s'
  end.

(** ** Where the entries of a manifest come from

    An entry of the client manifest comes from tier [t] when a plugin
    directory that the filter keeps, listed below the base path of [t],
    holds [client/index.js], and the entry is the import path of that
    file with the file name taken off. The entries of the server manifest
    come in the same way from [server/index.js] (entry points) and from
    [register.js] (registrations). *)

Definition clientOrigin (env : Env) (e : Entry) : Prop :=
  entryKind e = EntryPoint ∧
  ∃ plugin, plugin ∈ pluginDirs env (tierPath env (entryTier e)) ∧
    fsExists env ((tierPath env (entryTier e) +:+ plugin) +:+ "/client/index.js")
      = true ∧
    entryPath e
      = getImportPath env
          (JS.replace "/index.js" EmptyString
             ((tierPath env (entryTier e) +:+ plugin) +:+ "/client/index.js")).

Definition serverOrigin (env : Env) (e : Entry) : Prop :=
  ∃ plugin, plugin ∈ pluginDirs env (tierPath env (entryTier e)) ∧
    match entryKind e with
    | EntryPoint =>
        fsExists env ((tierPath env (entryTier e) +:+ plugin) +:+ "/server/index.js")
          = true ∧
        entryPath e
          = getImportPath env
              (JS.replace "/index.js" EmptyString
                 ((tierPath env (entryTier e) +:+ plugin) +:+ "/server/index.js"))
    | Registration =>
        fsExists env ((tierPath env (entryTier e) +:+ plugin) +:+ "/register.js")
          = true ∧
        entryPath e
          = getImportPath env ((tierPath env (entryTier e) +:+ plugin) +:+ "/register.js")
    end.

(** The two manifests of a host, every path with its tier and kind. *)
Definition clientEntriesOf (env : Env) : list Entry :=
  clientEntries (tierImportPaths env Core) (tierImportPaths env Included)
    (tierImportPaths env Custom).

Definition serverEntriesOf (env : Env) : list Entry :=
  serverEntries (tierImportPaths env Core) (tierImportPaths env Included)
    (tierImportPaths env Custom).

(** A core plugin whose directory name holds a line feed, with a client
    entry. *)
Definition twoLineName : string :=
  "a" +:+ String lineFeed "b".

Definition lineFeedHost : Env :=
  hostOf [twoLineName] [] []
    [ "/home/app//imports/plugins/core/" +:+ twoLineName +:+ "/client/index.js" ]
    [] (λ _, true) (λ _ _ _, true).

(** ** Numbers in the names of a collection *)

(** The number at the end of a name that ends in [-copy-<digits>], zero
    counting as one; zero for every other name. *)
Definition copyNumberIn (name : string) : N :=
  match Regex.matchEnd Regex.copyNumber name with
  | Some m => copyNumberOf (JS.slice 6 m)
  | None => 0%N
  end.

(** No handle, no title of the collection ends in a copy number above
    [bound]. *)
Definition handleNumbersWithin (bound : N) (Products : list Product) : Prop :=
  Forall (λ p, (copyNumberIn (default EmptyString (prodHandle p)) ≤ bound)%N)
    Products.

Definition titleNumbersWithin (bound : N) (Products : list Product) : Prop :=
  Forall (λ p, (copyNumberIn (default EmptyString (prodTitle p)) ≤ bound)%N)
    Products.

(** * Properties *)

(** ** Strings *)

Lemma append_cons (c : ascii) (a b : string) :
  String c a +:+ b = String c (a +:+ b).
Proof. reflexivity. Qed.

Lemma append_nil_l (b : string) : EmptyString +:+ b = b.
Proof. reflexivity. Qed.

Lemma append_assoc (a b c : string) : (a +:+ b) +:+ c = a +:+ (b +:+ c).
Proof.
  induction a as [|x a IH]; [done|].
  rewrite !append_cons. by f_equal.
Qed.

Lemma append_inj_head (s a b : string) : s +:+ a = s +:+ b → a = b.
Proof.
  induction s as [|c s IH]; [done|].
  rewrite !append_cons. intros H. injection H as H. by apply IH.
Qed.

Lemma includes_cons (p : string) (c : ascii) (s : string) :
  JS.includes p (String c s) = JS.startsWith p (String c s) || JS.includes p s.
Proof. reflexivity. Qed.

Lemma replace_cons (pat rep : string) (c : ascii) (s : string) :
  JS.replace pat rep (String c s) =
  if JS.startsWith pat (String c s)
  then rep +:+ JS.slice (String.length pat) (String c s)
  else String c (JS.replace pat rep s).
Proof. reflexivity. Qed.

Section IndexJs.
(** The pattern [getImportPaths] removes from the entry files. *)
Local Abbreviation P := "/index.js" (only parsing).

Local Ltac crunch :=
  rewrite ?append_cons, ?append_nil_l; cbn; repeat case_decide; congruence.

(** An occurrence of the pattern cannot start inside [s] and end inside
    a following [/index.js]. *)
Lemma startsWith_indexjs_suffix (s : string) :
  s ≠ EmptyString → JS.startsWith P (s +:+ P) = JS.startsWith P s.
Proof.
  intros Hs. destruct s as [|c0 s]; [done|]. clear Hs.
  do 8 (destruct s as [|? s]; [crunch|]). crunch.
Qed.

(** Nor can one reach into a following directory name such as [/client]
    or [/server]. *)
Lemma startsWith_indexjs_dir (s t : string) (c : ascii) :
  c ≠ "i"%char →
  JS.startsWith P (s +:+ String "/" (String c t)) = JS.startsWith P s.
Proof.
  intros Hc. do 9 (destruct s as [|? s]; [crunch|]). crunch.
Qed.

Lemma includes_indexjs_dir (s t : string) (c : ascii) :
  c ≠ "i"%char →
  JS.includes P (String c t) = false →
  JS.includes P (s +:+ String "/" (String c t)) = JS.includes P s.
Proof.
  intros Hc Ht. induction s as [|x s IH].
  - rewrite append_nil_l, includes_cons, Ht, orb_false_r.
    cbn. repeat case_decide; congruence.
  - rewrite append_cons, !includes_cons, IH.
    rewrite <- append_cons. by rewrite startsWith_indexjs_dir.
Qed.

(** When the pattern does not occur in [x], the occurrence [replace]
    removes from [x/index.js] is the trailing one. *)
Lemma replace_indexjs_last (x : string) :
  JS.includes P x = false →
  JS.replace P EmptyString (x +:+ P) = x.
Proof.
  induction x as [|c x IH]; intros Hx; [done|].
  rewrite includes_cons in Hx. apply orb_false_iff in Hx as [Hs Hx].
  rewrite append_cons, replace_cons, <- append_cons.
  rewrite startsWith_indexjs_suffix by done.
  rewrite Hs. f_equal. by apply IH.
Qed.

(** What [getImportPaths] does to the entry file of a directory whose
    path is free of the pattern: the file name goes. *)
Lemma replace_entry_file (dir t : string) (c : ascii) :
  c ≠ "i"%char →
  JS.includes P (String c t) = false →
  JS.includes P dir = false →
  JS.replace P EmptyString (dir +:+ String "/" (String c t) +:+ P)
  = dir +:+ String "/" (String c t).
Proof.
  intros Hc Ht Hdir. rewrite <- append_assoc.
  apply replace_indexjs_last. by rewrite includes_indexjs_dir.
Qed.
End IndexJs.

Lemma replaceBackslashes_clean (s : string) :
  JS.includes (String "092"%char EmptyString) (JS.replaceBackslashes s) = false.
Proof.
  induction s as [|c s IH]; [done|].
  cbn [JS.replaceBackslashes]. rewrite includes_cons, IH, orb_false_r.
  cbn. repeat case_decide; congruence.
Qed.

Lemma getImportPath_wellFormed (env : Env) (pluginFile : string) :
  wellFormedPath (getImportPath env pluginFile).
Proof.
  split; [|apply replaceBackslashes_clean].
  unfold getImportPath. rewrite append_cons. reflexivity.
Qed.

Lemma clientFile_ne_serverFile (env : Env) : clientFile env ≠ serverFile env.
Proof.
  unfold clientFile, serverFile. intros H.
  apply append_inj_head in H. discriminate H.
Qed.

Lemma concatLines_app (xs ys : list string) :
  concatLines (xs ++ ys) = concatLines xs +:+ concatLines ys.
Proof.
  induction xs as [|x xs IH]; [done|].
  change (x +:+ concatLines (xs ++ ys) = (x +:+ concatLines xs) +:+ concatLines ys).
  by rewrite IH, append_assoc.
Qed.

Lemma append_nil_r (s : string) : s +:+ EmptyString = s.
Proof. induction s as [|c s IH]; [done|]. rewrite append_cons. by f_equal. Qed.

(** ** Running the monad *)

Lemma run_bind {A B} (m : M A) (k : A → M B) (w : World) :
  (m ≫= k) w =
  match m w with
  | (Returned a, w') => k a w'
  | (Thrown, w') => (Thrown, w')
  | (Exited c, w') => (Exited c, w')
  end.
Proof. reflexivity. Qed.

Lemma run_forEach_cons {A S} (x : A) (xs : list A) (body : A → S → M S)
    (s : S) (w : World) :
  forEach (x :: xs) body s w =
  match body x s w with
  | (Returned s', w') => forEach xs body s' w'
  | (Thrown, w') => (Thrown, w')
  | (Exited c, w') => (Exited c, w')
  end.
Proof. reflexivity. Qed.

Lemma appendPaths_noPaths_r (a : ImportPaths) : appendPaths a noPaths = a.
Proof. destruct a. unfold appendPaths; simpl. by rewrite !app_nil_r. Qed.

Lemma appendPaths_assoc (a b c : ImportPaths) :
  appendPaths (appendPaths a b) c = appendPaths a (appendPaths b c).
Proof. unfold appendPaths; simpl. by rewrite !app_assoc. Qed.

Lemma dirsPaths_cons (env : Env) (base p : string) (dirs : list string) :
  dirsPaths env base (p :: dirs)
  = appendPaths (pluginPaths env base p) (dirsPaths env base dirs).
Proof. reflexivity. Qed.

Section Discovery.
Context (env : Env) (base : string).

(** One turn of the loop of [getImportPaths]. *)
Lemma pluginStep_run (p : string) (acc : ImportPaths) (w : World) :
  pluginStep env base p acc w =
  let acc' := appendPaths acc (pluginPaths env base p) in
  if hasPackageJson env base p then
    let w1 := started (npmInstall base p) (logged (LogInfo (installingMsg p)) w) in
    if installOk env base p then (Returned acc', w1)
    else (Exited 1, logged (LogError (installFailedMsg p)) w1)
  else (Returned acc', w).
Proof.
  assert (appendPaths acc (pluginPaths env base p) =
    {| client :=
         if fsExists env ((base +:+ p) +:+ "/client/index.js")
         then client acc ++ [getImportPath env (JS.replace "/index.js" EmptyString
                ((base +:+ p) +:+ "/client/index.js"))]
         else client acc;
       server :=
         if fsExists env ((base +:+ p) +:+ "/server/index.js")
         then server acc ++ [getImportPath env (JS.replace "/index.js" EmptyString
                ((base +:+ p) +:+ "/server/index.js"))]
         else server acc;
       registry :=
         if fsExists env ((base +:+ p) +:+ "/register.js")
         then registry acc ++ [getImportPath env ((base +:+ p) +:+ "/register.js")]
         else registry acc |}) as ->.
  { unfold appendPaths, pluginPaths; simpl.
    by repeat case_match; rewrite ?app_nil_r. }
  unfold pluginStep, hasPackageJson, installOk.
  destruct (fsExists env ((base +:+ p) +:+ "/package.json")); [|done].
  rewrite !run_bind. unfold tryCatch, execSync, Log_info; simpl.
  by destruct (execSyncOk env (npmInstall base p)).
Qed.

(** What the loop does, whatever its outcome: the files stay as they
    are; it returns the paths of all directories when every install
    passes, and otherwise ends the process at the first install that
    fails, right after logging it. *)
Lemma pluginLoop_spec (dirs : list string) (acc : ImportPaths) (w : World) :
  match forEach dirs (pluginStep env base) acc w with
  | (Returned r, w') =>
      files w' = files w ∧
      r = appendPaths acc (dirsPaths env base dirs) ∧
      installsPass env base dirs ∧
      execs w' = execs w ++ installCommands env base dirs
  | (Thrown, _) => False
  | (Exited c, w') =>
      c = 1 ∧ files w' = files w ∧
      ∃ pre q post, dirs = pre ++ q :: post ∧
        installsPass env base pre ∧
        hasPackageJson env base q = true ∧ installOk env base q = false ∧
        last (logs w') = Some (LogError (installFailedMsg q)) ∧
        execs w' = execs w ++ installCommands env base pre ++ [npmInstall base q]
  end.
Proof.
  revert acc w. induction dirs as [|p dirs IH]; intros acc w.
  - simpl. split_and!; try done.
    + by rewrite appendPaths_noPaths_r.
    + constructor.
    + by rewrite app_nil_r.
  - rewrite run_forEach_cons, pluginStep_run. cbv zeta.
    destruct (hasPackageJson env base p) eqn:Hpkg.
    + destruct (installOk env base p) eqn:Hok.
      * specialize (IH (appendPaths acc (pluginPaths env base p))
                       (started (npmInstall base p)
                          (logged (LogInfo (installingMsg p)) w))).
        destruct (forEach dirs _ _ _) as [[r| |c] w'].
        -- destruct IH as (Hf & -> & Hpass & Hex). split_and!; try done.
           ++ by rewrite dirsPaths_cons, appendPaths_assoc.
           ++ constructor; done.
           ++ rewrite Hex. unfold installCommands. simpl. rewrite Hpkg.
              simpl. by rewrite <- app_assoc.
        -- done.
        -- destruct IH as (-> & Hf & pre & q & post & -> & Hpre & Hq & Hnok & Hlog & Hex).
           split_and!; try done.
           exists (p :: pre), q, post. split_and!; try done.
           ++ constructor; done.
           ++ rewrite Hex. unfold installCommands. simpl. rewrite Hpkg.
              simpl. by rewrite <- !app_assoc.
      * split_and!; try done.
        exists [], p, dirs. split_and!; try done.
        -- constructor.
        -- simpl. by rewrite last_snoc.
    + specialize (IH (appendPaths acc (pluginPaths env base p)) w).
      destruct (forEach dirs _ _ _) as [[r| |c] w'].
      * destruct IH as (Hf & -> & Hpass & Hex). split_and!; try done.
        -- by rewrite dirsPaths_cons, appendPaths_assoc.
        -- constructor; [congruence|done].
        -- rewrite Hex. unfold installCommands. simpl. by rewrite Hpkg.
      * done.
      * destruct IH as (-> & Hf & pre & q & post & -> & Hpre & Hq & Hnok & Hlog & Hex).
        split_and!; try done.
        exists (p :: pre), q, post. split_and!; try done.
        -- constructor; [congruence|done].
        -- rewrite Hex. unfold installCommands. simpl. by rewrite Hpkg.
Qed.
End Discovery.

Section Emission.
Context (env : Env) (file : string).

(** The loop of [generateImportsFile] over the import paths, started on
    a file that holds [content]. *)
Lemma appendLoop_spec (imports : list string) (content : string) (w : World) :
  files w !! file = Some content →
  match forEach imports (λ importPath _,
          tryCatch
            (appendFileSync env file (importLine importPath))
            (Log_error ("Failed to write to plugins file at " +:+ importPath);;
             processExit 1)) tt w with
  | (Returned _, w') =>
      files w' = <[file := content +:+ concatLines (importLine <$> imports)]> (files w) ∧
      logs w' = logs w ∧ execs w' = execs w
  | (Thrown, _) => False
  | (Exited c, w') =>
      c = 1 ∧ execs w' = execs w ∧
      (∀ f, f ≠ file → files w' !! f = files w !! f) ∧
      ∃ pre p post, imports = pre ++ p :: post ∧
        files w' !! file = Some (content +:+ concatLines (importLine <$> pre)) ∧
        logs w' = logs w ++ [LogError (appendFailedMsg p)]
  end.
Proof.
  revert content w. induction imports as [|p imports IH]; intros content w Hc.
  - simpl. split_and!; try done.
    rewrite append_nil_r. symmetry. by apply insert_id.
  - rewrite run_forEach_cons. unfold tryCatch at 1, appendFileSync at 1.
    destruct (fsWriteOk env (files w) file (importLine p)) eqn:Hok.
    + rewrite Hc. simpl default.
      match goal with |- context [forEach _ _ _ ?w1] =>
        specialize (IH (content +:+ importLine p) w1) end.
      simpl in IH. rewrite lookup_insert_eq in IH. specialize (IH eq_refl).
      destruct (forEach imports _ _ _) as [[r| |c] w'].
      * destruct IH as (Hf & Hl & He). split_and!; try done.
        rewrite Hf, insert_insert_eq. f_equal.
        change (concatLines (importLine <$> p :: imports))
          with (importLine p +:+ concatLines (importLine <$> imports)).
        by rewrite append_assoc.
      * done.
      * destruct IH as (-> & He & Hfr & pre & q & post & -> & Hfile & Hlog).
        split_and!; try done.
        -- intros f Hne. rewrite Hfr by done. by rewrite lookup_insert_ne.
        -- exists (p :: pre), q, post. split_and!; try done.
           rewrite Hfile. f_equal.
           change (concatLines (importLine <$> p :: pre))
             with (importLine p +:+ concatLines (importLine <$> pre)).
           by rewrite append_assoc.
    + rewrite run_bind. simpl. split_and!; try done.
      exists [], p, imports. split_and!; try done.
      simpl. by rewrite Hc, append_nil_r.
Qed.

(** What [generateImportsFile] does, whatever its outcome. On return the
    file holds the rendered manifest; it never throws; when it ends the
    process, no other file was touched and one error line was logged,
    about the file when the reset failed and about the import path being
    written when an append failed. *)
Lemma generateImportsFile_spec (imports : list string) (w : World) :
  match generateImportsFile env file imports w with
  | (Returned _, w') =>
      files w' = <[file := render imports]> (files w) ∧
      logs w' = logs w ∧ execs w' = execs w
  | (Thrown, _) => False
  | (Exited c, w') =>
      c = 1 ∧ execs w' = execs w ∧
      (∀ f, f ≠ file → files w' !! f = files w !! f) ∧
      (logs w' = logs w ++ [LogError (resetFailedMsg file)]
       ∨ ∃ pre p post, imports = pre ++ p :: post ∧
           files w' !! file = Some (render pre) ∧
           logs w' = logs w ++ [LogError (appendFailedMsg p)])
  end.
Proof.
  unfold generateImportsFile. rewrite run_bind.
  unfold tryCatch at 1. rewrite run_bind. unfold writeFileSync at 1.
  destruct (fsWriteOk env (files w) file EmptyString) eqn:H1.
  - unfold writeFileSync at 1. cbn [files logs execs].
    destruct (fsWriteOk env (<[file:=EmptyString]> (files w)) file importFileMessage)
      eqn:H2.
    + match goal with |- context [forEach _ _ _ ?w1] =>
        pose proof (appendLoop_spec imports importFileMessage w1) as HL end.
      cbn [files logs execs] in HL. rewrite lookup_insert_eq in HL.
      specialize (HL eq_refl).
      destruct (forEach imports _ _ _) as [[r| |c] w'].
      * destruct HL as (Hf & Hl & He). split_and!; try done.
        by rewrite Hf, !insert_insert_eq.
      * done.
      * destruct HL as (-> & He & Hfr & pre & p & post & -> & Hfile & Hlog).
        split_and!; try done.
        -- intros f Hne. rewrite Hfr by done.
           by rewrite !lookup_insert_ne.
        -- right. by exists pre, p, post.
    + rewrite run_bind. simpl. split_and!; try done.
      * intros f Hne. by rewrite lookup_insert_ne.
      * by left.
  - rewrite run_bind. simpl. split_and!; try done. by left.
Qed.
End Emission.

(** ** Order of the manifests *)

Lemma labelled_paths (t : Tier) (k : Kind) (paths : list string) :
  entryPath <$> labelled t k paths = paths.
Proof.
  unfold labelled. rewrite <- list_fmap_compose.
  induction paths as [|p paths IH]; [done|]. simpl. by f_equal.
Qed.

Lemma labelled_Forall (Q : Entry → Prop) (t : Tier) (k : Kind)
    (paths : list string) :
  (∀ p, Q {| entryTier := t; entryKind := k; entryPath := p |}) →
  Forall Q (labelled t k paths).
Proof.
  intros HQ. unfold labelled. apply Forall_fmap, Forall_forall.
  intros p _. apply HQ.
Qed.

(** A block of one tier and kind is ordered by any rank that ignores the
    path. *)
Lemma orderedBy_labelled (rank : Entry → nat) (t : Tier) (k : Kind)
    (paths : list string) :
  (∀ p q, rank {| entryTier := t; entryKind := k; entryPath := p |}
        = rank {| entryTier := t; entryKind := k; entryPath := q |}) →
  orderedBy rank (labelled t k paths).
Proof.
  intros Hrank i j a b Hi Hj Hlt. exfalso.
  unfold labelled in Hi, Hj. rewrite list_lookup_fmap in Hi, Hj.
  destruct (paths !! i) as [p|]; [|done].
  destruct (paths !! j) as [q|]; [|done].
  simpl in Hi, Hj. injection Hi as <-. injection Hj as <-.
  rewrite (Hrank p q) in Hlt. lia.
Qed.

(** Two ordered blocks, the ranks of the first at most [n] and those of
    the second at least [n], make an ordered list. *)
Lemma orderedBy_app (rank : Entry → nat) (n : nat) (m1 m2 : list Entry) :
  orderedBy rank m1 → orderedBy rank m2 →
  Forall (λ e, rank e ≤ n) m1 → Forall (λ e, n ≤ rank e) m2 →
  orderedBy rank (m1 ++ m2).
Proof.
  intros H1 H2 Hle Hge i j a b Hi Hj Hlt.
  rewrite Forall_forall in Hle. rewrite Forall_forall in Hge.
  apply lookup_app_Some in Hi as [Hi|[Hli Hi]];
    apply lookup_app_Some in Hj as [Hj|[Hlj Hj]].
  - by eapply H1.
  - apply lookup_lt_Some in Hi. lia.
  - pose proof (Hge a (list_elem_of_lookup_2 _ _ _ Hi)).
    pose proof (Hle b (list_elem_of_lookup_2 _ _ _ Hj)). lia.
  - pose proof (H2 _ _ _ _ Hi Hj Hlt). lia.
Qed.

Local Ltac rank_bounds :=
  repeat (apply Forall_app; split);
  apply labelled_Forall; intros; cbn; lia.

Local Ltac ordered_blocks n :=
  apply (orderedBy_app _ n);
  [apply orderedBy_labelled; reflexivity| |rank_bounds|rank_bounds].

Lemma clientEntries_ordered (core included custom : ImportPaths) :
  orderedBy (λ e, tierRank (entryTier e)) (clientEntries core included custom).
Proof.
  unfold clientEntries.
  ordered_blocks 0. ordered_blocks 1.
  apply orderedBy_labelled; reflexivity.
Qed.

Lemma serverEntries_ordered (core included custom : ImportPaths) :
  orderedBy entryRank (serverEntries core included custom).
Proof.
  unfold serverEntries.
  ordered_blocks 0. ordered_blocks 1. ordered_blocks 2.
  ordered_blocks 3. ordered_blocks 4.
  apply orderedBy_labelled; reflexivity.
Qed.

Lemma clientEntries_paths (core included custom : ImportPaths) :
  entryPath <$> clientEntries core included custom
  = clientImports core included custom.
Proof.
  unfold clientEntries, clientImports.
  by rewrite !fmap_app, !labelled_paths.
Qed.

Lemma serverEntries_paths (core included custom : ImportPaths) :
  entryPath <$> serverEntries core included custom
  = serverImports core included custom.
Proof.
  unfold serverEntries, serverImports.
  by rewrite !fmap_app, !labelled_paths.
Qed.

Lemma serverEntries_within (k : Kind) (core included custom : ImportPaths) :
  tierPrecedenceWithin k (serverEntries core included custom).
Proof.
  intros i j a b Hi Hj Ha Hb Hlt.
  apply (serverEntries_ordered core included custom i j a b Hi Hj).
  unfold entryRank. rewrite Ha, Hb. lia.
Qed.

(** C1 as stated fails for the server manifest: with a core plugin that
    has a registration file and an included plugin that has a server
    entry, the core tier's [register.js] comes after the included tier's
    server path. *)
Lemma C1_server_tiers_interleave :
  let core := {| client := ["/imports/plugins/core/A/client"];
                 server := ["/imports/plugins/core/A/server"];
                 registry := ["/imports/plugins/core/A/register.js"] |} in
  let included := {| client := ["/imports/plugins/included/C/client"];
                     server := ["/imports/plugins/included/C/server"];
                     registry := [] |} in
  let custom := noPaths in
  (discover demoHost emptyWorld).1 = Returned (core, included, custom) ∧
  serverImports core included custom
    = [ "/imports/plugins/core/A/server";
        "/imports/plugins/included/C/server";
        "/imports/plugins/core/A/register.js" ] ∧
  ¬ tierPrecedence (serverEntries core included custom).
Proof.
  cbv zeta. split_and!.
  - vm_compute. reflexivity.
  - reflexivity.
  - intros H.
    specialize (H 2 1 _ _ eq_refl eq_refl). cbn in H. lia.
Qed.

(** ** The whole run *)

Lemma installCommands_eligible (env : Env) (t : Tier) (dirs : list string) :
  dirs ⊆ pluginDirs env (tierPath env t) →
  Forall (eligibleInstall env) (installCommands env (tierPath env t) dirs).
Proof.
  intros Hsub. unfold installCommands. apply Forall_fmap, Forall_forall.
  intros p Hp. apply list_elem_of_In, List.filter_In in Hp as [Hp Hpkg].
  exists t, p. split_and!; try done. apply Hsub. by apply list_elem_of_In.
Qed.

(** [getImportPaths] on the base path of a tier. *)
Lemma getImportPaths_spec (env : Env) (t : Tier) (w : World) :
  match getImportPaths env (tierPath env t) w with
  | (Returned r, w') =>
      files w' = files w ∧ r = tierImportPaths env t ∧
      installsPass env (tierPath env t) (pluginDirs env (tierPath env t)) ∧
      onlyEligibleInstalls env w w'
  | (Thrown, _) => False
  | (Exited c, w') =>
      c = 1 ∧ files w' = files w ∧
      (∃ q, installFailedLast env t q w') ∧
      onlyEligibleInstalls env w w'
  end.
Proof.
  unfold getImportPaths.
  pose proof (pluginLoop_spec env (tierPath env t)
                (pluginDirs env (tierPath env t)) noPaths w) as H.
  change {| client := []; server := []; registry := [] |} with noPaths.
  destruct (forEach _ _ _ _) as [[r| |c] w'].
  - destruct H as (Hf & -> & Hpass & Hex). split_and!; try done.
    eexists. split; [exact Hex|]. by apply installCommands_eligible.
  - done.
  - destruct H as (-> & Hf & pre & q & post & Hdirs & Hpre & Hq & Hnok & Hlog & Hex).
    assert (q ∈ pluginDirs env (tierPath env t)) as Hin.
    { rewrite Hdirs. apply elem_of_app. right. by left. }
    split_and!; try done.
    + exists q. split_and!; try done.
      by rewrite Hex, !app_assoc, last_snoc.
    + eexists. split; [exact Hex|].
      apply Forall_app. split.
      * apply installCommands_eligible. rewrite Hdirs.
        intros x Hx. apply elem_of_app. by left.
      * constructor; [|constructor]. by exists t, q.
Qed.

Lemma onlyEligibleInstalls_trans (env : Env) (w1 w2 w3 : World) :
  onlyEligibleInstalls env w1 w2 → onlyEligibleInstalls env w2 w3 →
  onlyEligibleInstalls env w1 w3.
Proof.
  intros (n1 & H1 & F1) (n2 & H2 & F2). exists (n1 ++ n2). split.
  - by rewrite H2, H1, app_assoc.
  - by apply Forall_app.
Qed.

(** The discovery of the three tiers: it returns the import paths of the
    tiers when every install passes and ends the process at the first
    install that fails; the files stay as they are. *)
Lemma discover_spec (env : Env) (w : World) :
  match discover env w with
  | (Returned (core, included, custom), w') =>
      core = tierImportPaths env Core ∧
      included = tierImportPaths env Included ∧
      custom = tierImportPaths env Custom ∧
      files w' = files w ∧ allInstallsPass env ∧
      onlyEligibleInstalls env w w'
  | (Thrown, _) => False
  | (Exited c, w') =>
      c = 1 ∧ files w' = files w ∧
      (∃ t q, installFailedLast env t q w') ∧
      onlyEligibleInstalls env w w'
  end.
Proof.
  unfold discover. rewrite run_bind.
  pose proof (getImportPaths_spec env Core w) as HC.
  change (tierPath env Core) with (corePlugins env) in HC.
  destruct (getImportPaths env (corePlugins env) w) as [[c| |k] w1]; [|done|].
  2:{ destruct HC as (-> & Hf & [q Hq] & He). split_and!; try done. by exists Core, q. }
  destruct HC as (Hf1 & -> & Hp1 & He1). rewrite run_bind.
  pose proof (getImportPaths_spec env Included w1) as HI.
  change (tierPath env Included) with (includedPlugins env) in HI.
  destruct (getImportPaths env (includedPlugins env) w1) as [[i| |k] w2]; [|done|].
  2:{ destruct HI as (-> & Hf & [q Hq] & He). split_and!; try done.
      - congruence.
      - by exists Included, q.
      - by eapply onlyEligibleInstalls_trans. }
  destruct HI as (Hf2 & -> & Hp2 & He2). rewrite run_bind.
  pose proof (getImportPaths_spec env Custom w2) as HU.
  change (tierPath env Custom) with (customPlugins env) in HU.
  destruct (getImportPaths env (customPlugins env) w2) as [[u| |k] w3]; [|done|].
  2:{ destruct HU as (-> & Hf & [q Hq] & He). split_and!; try done.
      - congruence.
      - by exists Custom, q.
      - eapply onlyEligibleInstalls_trans; [|done].
        by eapply onlyEligibleInstalls_trans. }
  destruct HU as (Hf3 & -> & Hp3 & He3). simpl. split_and!; try done.
  - congruence.
  - by intros [].
  - eapply onlyEligibleInstalls_trans; [|done].
    by eapply onlyEligibleInstalls_trans.
Qed.

(** [loadPlugins] is the discovery followed by the two emissions. *)
Lemma loadPlugins_phases (env : Env) (w : World) :
  loadPlugins env w =
  match discover env w with
  | (Returned (core, included, custom), w0) =>
      match generateImportsFile env (clientFile env)
              (clientImports core included custom) w0 with
      | (Returned _, w1) =>
          generateImportsFile env (serverFile env)
            (serverImports core included custom) w1
      | (Thrown, w1) => (Thrown, w1)
      | (Exited c, w1) => (Exited c, w1)
      end
  | (Thrown, w0) => (Thrown, w0)
  | (Exited c, w0) => (Exited c, w0)
  end.
Proof.
  unfold loadPlugins, discover. rewrite !run_bind.
  destruct (getImportPaths env (corePlugins env) w) as [[c| |k] w1]; [|done..].
  rewrite !run_bind.
  destruct (getImportPaths env (includedPlugins env) w1) as [[i| |k] w2]; [|done..].
  rewrite !run_bind.
  destruct (getImportPaths env (customPlugins env) w2) as [[u| |k] w3]; [|done..].
  rewrite run_bind. done.
Qed.

Lemma dirsPaths_wellFormed (env : Env) (base : string) (dirs : list string) :
  Forall wellFormedPath (client (dirsPaths env base dirs)) ∧
  Forall wellFormedPath (server (dirsPaths env base dirs)) ∧
  Forall wellFormedPath (registry (dirsPaths env base dirs)).
Proof.
  induction dirs as [|p dirs (IHc & IHs & IHr)]; [by split_and!|].
  rewrite dirsPaths_cons. unfold appendPaths; simpl.
  split_and!; apply Forall_app; (split; [|done]);
    case_match; constructor; auto using getImportPath_wellFormed.
Qed.

Lemma manifests_wellFormed (env : Env) :
  Forall wellFormedPath (clientManifest env) ∧
  Forall wellFormedPath (serverManifest env).
Proof.
  unfold clientManifest, serverManifest, clientImports, serverImports,
    tierImportPaths.
  split; repeat (apply Forall_app; split);
    apply dirsPaths_wellFormed.
Qed.

(** C5: when the install command of a plugin fails, the run ends the
    process with status 1, the last line logged names the plugin whose
    install failed, that install is the last command started, and no file
    was written. *)
Theorem C5_install_failure_is_fatal (env : Env) (w : World) (t : Tier)
    (p : string) :
  p ∈ pluginDirs env (tierPath env t) →
  hasPackageJson env (tierPath env t) p = true →
  installOk env (tierPath env t) p = false →
  ∃ w', loadPlugins env w = (Exited 1, w') ∧
        files w' = files w ∧
        ∃ t' q, installFailedLast env t' q w'.
Proof.
  intros Hin Hpkg Hnok. rewrite loadPlugins_phases.
  pose proof (discover_spec env w) as HD.
  destruct (discover env w) as [[[[c i] u]| |k] w0]; [|done|].
  - exfalso. destruct HD as (_ & _ & _ & _ & Hpass & _).
    specialize (Hpass t). unfold installsPass in Hpass.
    rewrite Forall_forall in Hpass. specialize (Hpass p Hin Hpkg). congruence.
  - destruct HD as (-> & Hf & Hq & _). by exists w0.
Qed.

Lemma C5_witness :
  ("A" ∈ pluginDirs installFailsHost (tierPath installFailsHost Core) ∧
   hasPackageJson installFailsHost (tierPath installFailsHost Core) "A" = true ∧
   installOk installFailsHost (tierPath installFailsHost Core) "A" = false) ∧
  ∃ w', loadPlugins installFailsHost emptyWorld = (Exited 1, w') ∧
        files w' = files emptyWorld ∧
        ∃ t' q, installFailedLast installFailsHost t' q w'.
Proof.
  assert ("A" ∈ pluginDirs installFailsHost (tierPath installFailsHost Core))
    as Hin by (vm_compute; constructor).
  assert (hasPackageJson installFailsHost (tierPath installFailsHost Core) "A" = true)
    as Hpkg by (vm_compute; reflexivity).
  assert (installOk installFailsHost (tierPath installFailsHost Core) "A" = false)
    as Hnok by (vm_compute; reflexivity).
  split; [by split_and!|].
  exact (C5_install_failure_is_fatal installFailsHost emptyWorld Core "A"
           Hin Hpkg Hnok).
Defined.

(** What a run that returns has done. *)
Lemma loadPlugins_returned (env : Env) (w w' : World) (u : unit) :
  loadPlugins env w = (Returned u, w') →
  ∃ w0, discover env w
        = (Returned (tierImportPaths env Core, tierImportPaths env Included,
                     tierImportPaths env Custom), w0) ∧
    files w' = <[serverFile env := render (serverManifest env)]>
                 (<[clientFile env := render (clientManifest env)]> (files w)).
Proof.
  rewrite loadPlugins_phases.
  pose proof (discover_spec env w) as HD.
  destruct (discover env w) as [[[[c i] d]| |k] w0]; [|done..].
  destruct HD as (-> & -> & -> & Hf0 & _ & _).
  pose proof (generateImportsFile_spec env (clientFile env)
    (clientManifest env) w0) as HC.
  fold (clientManifest env). fold (serverManifest env).
  destruct (generateImportsFile env (clientFile env) _ w0) as [[?| |k] w1];
    [|done..].
  destruct HC as (Hf1 & _ & _).
  pose proof (generateImportsFile_spec env (serverFile env)
    (serverManifest env) w1) as HS.
  destruct (generateImportsFile env (serverFile env) _ w1) as [[?| |k] w2];
    [|done..].
  destruct HS as (Hf2 & _ & _).
  intros [= _ <-]. exists w0. split; [done|]. by rewrite Hf2, Hf1, Hf0.
Qed.

(** ** The text of the generated files *)

(** What [generateImportsFile] writes reads as the warning followed by one
    import statement and line feed for each path. *)
Lemma render_manifestText (imports : list string) :
  render imports = manifestText imports.
Proof.
  unfold render, manifestText.
  change importFileMessage with generatedWarning. f_equal.
  induction imports as [|p imports IH]; [done|].
  change (importLine p +:+ concatLines (importLine <$> imports)
          = (importStatement p +:+ String lineFeed EmptyString)
            +:+ concatLines ((λ p, importStatement p +:+ String lineFeed EmptyString)
                             <$> imports)).
  rewrite IH. f_equal. unfold importLine, importStatement.
  by rewrite !append_assoc.
Qed.

Lemma splitOn_separator (sep : ascii) (a b : string) :
  hasChar sep a = false →
  splitOn sep (a +:+ String sep b) = a :: splitOn sep b.
Proof.
  induction a as [|c a IH].
  - intros _. rewrite append_nil_l. simpl. by rewrite decide_True.
  - simpl hasChar. intros [Hc Ha]%orb_false_iff.
    apply bool_decide_eq_false in Hc.
    rewrite append_cons. simpl. rewrite decide_False by done.
    by rewrite IH.
Qed.

Lemma hasChar_app (c : ascii) (a b : string) :
  hasChar c (a +:+ b) = hasChar c a || hasChar c b.
Proof.
  induction a as [|x a IH]; [done|].
  rewrite append_cons. simpl. by rewrite IH, orb_assoc.
Qed.

(** The lines of a list of statements, each followed by a line feed, are
    the statements, when no statement holds a line feed itself. *)
Lemma splitOn_statements (statement : string → string) (paths : list string) :
  Forall (λ p, hasChar lineFeed (statement p) = false) paths →
  splitOn lineFeed
    (concatLines ((λ p, statement p +:+ String lineFeed EmptyString) <$> paths))
  = (statement <$> paths) ++ [EmptyString].
Proof.
  induction 1 as [|p paths Hp _ IH]; [done|].
  change (splitOn lineFeed
            ((statement p +:+ String lineFeed EmptyString) +:+
             concatLines ((λ p, statement p +:+ String lineFeed EmptyString)
                          <$> paths))
          = statement p :: ((statement <$> paths) ++ [EmptyString])).
  rewrite append_assoc, append_cons, append_nil_l.
  rewrite splitOn_separator by done. by rewrite IH.
Qed.

(** ** The entries of the manifests and the plugin directories *)

Lemma elem_of_labelled (t : Tier) (k : Kind) (paths : list string) (e : Entry) :
  e ∈ labelled t k paths ↔
  entryTier e = t ∧ entryKind e = k ∧ entryPath e ∈ paths.
Proof.
  unfold labelled. rewrite list_elem_of_fmap. split.
  - intros (p & -> & Hp). by split_and!.
  - intros (Ht & Hk & Hp). exists (entryPath e). split; [|done].
    destruct e as [t' k' p']. simpl in *. by subst.
Qed.

Lemma elem_of_optional {A} (b : bool) (x y : A) :
  x ∈ (if b then [y] else []) ↔ b = true ∧ x = y.
Proof.
  destruct b.
  - rewrite list_elem_of_singleton. split; [by intros ->|by intros [_ ->]].
  - split; [by intros ?%elem_of_nil|by intros [? _]].
Qed.

(** The paths of a tier are those of the plugin directories that passed
    the filter. *)
Lemma tier_client_paths (env : Env) (t : Tier) (p : string) :
  p ∈ client (tierImportPaths env t) ↔
  ∃ plugin, plugin ∈ pluginDirs env (tierPath env t) ∧
    fsExists env ((tierPath env t +:+ plugin) +:+ "/client/index.js") = true ∧
    p = getImportPath env
          (JS.replace "/index.js" EmptyString
             ((tierPath env t +:+ plugin) +:+ "/client/index.js")).
Proof.
  unfold tierImportPaths, dirsPaths; simpl. rewrite list_elem_of_bind.
  split.
  - intros (plugin & Hp & Hin). apply elem_of_optional in Hp as [? ?].
    by exists plugin.
  - intros (plugin & Hin & Hex & ->). exists plugin. split; [|done].
    by apply elem_of_optional.
Qed.

Lemma tier_server_paths (env : Env) (t : Tier) (p : string) :
  p ∈ server (tierImportPaths env t) ↔
  ∃ plugin, plugin ∈ pluginDirs env (tierPath env t) ∧
    fsExists env ((tierPath env t +:+ plugin) +:+ "/server/index.js") = true ∧
    p = getImportPath env
          (JS.replace "/index.js" EmptyString
             ((tierPath env t +:+ plugin) +:+ "/server/index.js")).
Proof.
  unfold tierImportPaths, dirsPaths; simpl. rewrite list_elem_of_bind.
  split.
  - intros (plugin & Hp & Hin). apply elem_of_optional in Hp as [? ?].
    by exists plugin.
  - intros (plugin & Hin & Hex & ->). exists plugin. split; [|done].
    by apply elem_of_optional.
Qed.

Lemma tier_registry_paths (env : Env) (t : Tier) (p : string) :
  p ∈ registry (tierImportPaths env t) ↔
  ∃ plugin, plugin ∈ pluginDirs env (tierPath env t) ∧
    fsExists env ((tierPath env t +:+ plugin) +:+ "/register.js") = true ∧
    p = getImportPath env ((tierPath env t +:+ plugin) +:+ "/register.js").
Proof.
  unfold tierImportPaths, dirsPaths; simpl. rewrite list_elem_of_bind.
  split.
  - intros (plugin & Hp & Hin). apply elem_of_optional in Hp as [? ?].
    by exists plugin.
  - intros (plugin & Hin & Hex & ->). exists plugin. split; [|done].
    by apply elem_of_optional.
Qed.

(** Every entry of the client manifest comes from a plugin directory of
    its tier, and every such directory has its entry. *)
Lemma clientEntriesOf_origin (env : Env) (e : Entry) :
  e ∈ clientEntriesOf env ↔ clientOrigin env e.
Proof.
  unfold clientEntriesOf, clientEntries, clientOrigin.
  rewrite !elem_of_app, !elem_of_labelled. split.
  - intros [(Ht & Hk & Hp)|[(Ht & Hk & Hp)|(Ht & Hk & Hp)]];
      rewrite Ht; (split; [done|]); by apply tier_client_paths.
  - intros (Hk & Hp). apply tier_client_paths in Hp.
    destruct (entryTier e); [left|right; left|right; right]; by split_and!.
Qed.

Lemma serverEntriesOf_origin (env : Env) (e : Entry) :
  e ∈ serverEntriesOf env ↔ serverOrigin env e.
Proof.
  unfold serverEntriesOf, serverEntries, serverOrigin.
  rewrite !elem_of_app, !elem_of_labelled. split.
  - intros [(Ht & Hk & Hp)|[(Ht & Hk & Hp)|[(Ht & Hk & Hp)|
            [(Ht & Hk & Hp)|[(Ht & Hk & Hp)|(Ht & Hk & Hp)]]]]];
      rewrite Ht, Hk.
    1-3: apply tier_server_paths in Hp as (plugin & ? & ? & ?); by exists plugin.
    all: apply tier_registry_paths in Hp as (plugin & ? & ? & ?); by exists plugin.
  - intros (plugin & Hin & Hp).
    destruct (entryKind e) eqn:Hk.
    + assert (entryPath e ∈ server (tierImportPaths env (entryTier e))) as Hs.
      { apply tier_server_paths. exists plugin. by destruct Hp. }
      destruct (entryTier e);
        [left|right; left|right; right; left]; by split_and!.
    + assert (entryPath e ∈ registry (tierImportPaths env (entryTier e))) as Hs.
      { apply tier_registry_paths. exists plugin. by destruct Hp. }
      destruct (entryTier e);
        [right; right; right; left
        |right; right; right; right; left
        |right; right; right; right; right]; by split_and!.
Qed.

Lemma serverEntries_entryPointsFirst (core included custom : ImportPaths) :
  entryPointsFirst (serverEntries core included custom).
Proof.
  intros i j a b Hi Hj Ha Hb.
  apply (serverEntries_ordered core included custom i j a b Hi Hj).
  unfold entryRank. rewrite Ha, Hb.
  destruct (entryTier a), (entryTier b); cbn; lia.
Qed.

(** The two files after a run that returns. *)
Lemma loadPlugins_files (env : Env) (w w' : World) :
  loadPlugins env w = (Returned tt, w') →
  files w' !! clientFile env
    = Some (manifestText (entryPath <$> clientEntriesOf env)) ∧
  files w' !! serverFile env
    = Some (manifestText (entryPath <$> serverEntriesOf env)).
Proof.
  intros Hrun. apply loadPlugins_returned in Hrun as (w0 & _ & Hf).
  unfold clientEntriesOf, serverEntriesOf.
  rewrite clientEntries_paths, serverEntries_paths, <- !render_manifestText, Hf.
  split.
  - rewrite lookup_insert_ne by (symmetry; apply clientFile_ne_serverFile).
    by rewrite lookup_insert_eq.
  - by rewrite lookup_insert_eq.
Qed.

(** C1 (as amended): after a run of [loadPlugins] that returns, the
    client file lists the entries of the client manifest and the server
    file those of the server manifest, where the entries of a tier are
    those that come from the plugin directories below the base path of
    that tier. In the client file every core-tier path stands before
    every included-tier path, and every included-tier path before every
    custom-tier path. In the server file this order of the tiers holds
    among the entry-point paths and, separately, among the registration
    paths; every registration path, of whatever tier, stands after every
    entry-point path, those of the higher tiers included. *)
Theorem C1_tier_precedence_per_kind (env : Env) (w w' : World) :
  loadPlugins env w = (Returned tt, w') →
  files w' !! clientFile env
    = Some (manifestText (entryPath <$> clientEntriesOf env)) ∧
  files w' !! serverFile env
    = Some (manifestText (entryPath <$> serverEntriesOf env)) ∧
  (∀ e, e ∈ clientEntriesOf env ↔ clientOrigin env e) ∧
  (∀ e, e ∈ serverEntriesOf env ↔ serverOrigin env e) ∧
  tierPrecedence (clientEntriesOf env) ∧
  tierPrecedenceWithin EntryPoint (serverEntriesOf env) ∧
  tierPrecedenceWithin Registration (serverEntriesOf env) ∧
  entryPointsFirst (serverEntriesOf env).
Proof.
  intros Hrun. destruct (loadPlugins_files env w w' Hrun) as [Hc Hs].
  split_and!; try done.
  - apply clientEntriesOf_origin.
  - apply serverEntriesOf_origin.
  - exact (clientEntries_ordered _ _ _).
  - apply serverEntries_within.
  - apply serverEntries_within.
  - apply serverEntries_entryPointsFirst.
Qed.

Lemma C1_witness :
  loadPlugins demoHost staleWorld
    = (Returned tt, (loadPlugins demoHost staleWorld).2) ∧
  entryPath <$> serverEntriesOf demoHost
    = [ "/imports/plugins/core/A/server";
        "/imports/plugins/included/C/server";
        "/imports/plugins/core/A/register.js" ] ∧
  files (loadPlugins demoHost staleWorld).2 !! clientFile demoHost
    = Some (manifestText (entryPath <$> clientEntriesOf demoHost)) ∧
  files (loadPlugins demoHost staleWorld).2 !! serverFile demoHost
    = Some (manifestText (entryPath <$> serverEntriesOf demoHost)) ∧
  (∀ e, e ∈ clientEntriesOf demoHost ↔ clientOrigin demoHost e) ∧
  (∀ e, e ∈ serverEntriesOf demoHost ↔ serverOrigin demoHost e) ∧
  tierPrecedence (clientEntriesOf demoHost) ∧
  tierPrecedenceWithin EntryPoint (serverEntriesOf demoHost) ∧
  tierPrecedenceWithin Registration (serverEntriesOf demoHost) ∧
  entryPointsFirst (serverEntriesOf demoHost).
Proof.
  assert (loadPlugins demoHost staleWorld
          = (Returned tt, (loadPlugins demoHost staleWorld).2)) as Hrun
    by (vm_compute; reflexivity).
  split; [exact Hrun|]. split; [vm_compute; reflexivity|].
  exact (C1_tier_precedence_per_kind demoHost staleWorld _ Hrun).
Defined.

(** C2: after a run of [loadPlugins] that returns, the server file lists
    the entries of the server manifest, each of which comes from a plugin
    directory of its tier; every server entry-point path, of any tier,
    stands before every registration path, of any tier, and the
    registration paths follow the order of the tiers. *)
Theorem C2_entry_points_before_registrations (env : Env) (w w' : World) :
  loadPlugins env w = (Returned tt, w') →
  files w' !! serverFile env
    = Some (manifestText (entryPath <$> serverEntriesOf env)) ∧
  (∀ e, e ∈ serverEntriesOf env ↔ serverOrigin env e) ∧
  entryPointsFirst (serverEntriesOf env) ∧
  tierPrecedenceWithin Registration (serverEntriesOf env).
Proof.
  intros Hrun. destruct (loadPlugins_files env w w' Hrun) as [_ Hs].
  split_and!; try done.
  - apply serverEntriesOf_origin.
  - apply serverEntries_entryPointsFirst.
  - apply serverEntries_within.
Qed.

Lemma C2_witness :
  loadPlugins demoHost emptyWorld
    = (Returned tt, (loadPlugins demoHost emptyWorld).2) ∧
  serverEntriesOf demoHost
    = [ {| entryTier := Core; entryKind := EntryPoint;
           entryPath := "/imports/plugins/core/A/server" |};
        {| entryTier := Included; entryKind := EntryPoint;
           entryPath := "/imports/plugins/included/C/server" |};
        {| entryTier := Core; entryKind := Registration;
           entryPath := "/imports/plugins/core/A/register.js" |} ] ∧
  files (loadPlugins demoHost emptyWorld).2 !! serverFile demoHost
    = Some (manifestText (entryPath <$> serverEntriesOf demoHost)) ∧
  (∀ e, e ∈ serverEntriesOf demoHost ↔ serverOrigin demoHost e) ∧
  entryPointsFirst (serverEntriesOf demoHost) ∧
  tierPrecedenceWithin Registration (serverEntriesOf demoHost).
Proof.
  assert (loadPlugins demoHost emptyWorld
          = (Returned tt, (loadPlugins demoHost emptyWorld).2)) as Hrun
    by (vm_compute; reflexivity).
  split; [exact Hrun|]. split; [vm_compute; reflexivity|].
  exact (C2_entry_points_before_registrations demoHost emptyWorld _ Hrun).
Defined.

(** C7 (as amended): after a run that returns, each generated file holds,
    whatever it held before, the warning followed by the text
    [import '<import-path>';] and a line feed for every entry of its
    manifest, in the order of the manifest; every import path starts with
    a slash and holds no backslash. When no import path of the manifest
    holds a line feed, the lines after the warning are exactly the import
    statements, one line per entry. *)
Theorem C7_generated_file_content (env : Env) (w w' : World) :
  loadPlugins env w = (Returned tt, w') →
  ∃ core included custom w0,
    discover env w = (Returned (core, included, custom), w0) ∧
    ∀ file manifest,
      (file = clientFile env ∧ manifest = clientImports core included custom) ∨
      (file = serverFile env ∧ manifest = serverImports core included custom) →
      ∃ body,
        files w' !! file = Some (generatedWarning +:+ body) ∧
        body = concatLines
                 ((λ p, ("import '" +:+ p +:+ "';") +:+ String lineFeed EmptyString)
                  <$> manifest) ∧
        Forall wellFormedPath manifest ∧
        (Forall (λ p, hasChar lineFeed p = false) manifest →
         splitOn lineFeed body
         = ((λ p, "import '" +:+ p +:+ "';") <$> manifest) ++ [EmptyString]).
Proof.
  intros Hrun. apply loadPlugins_returned in Hrun as (w0 & HD & Hf).
  eexists _, _, _, w0. split; [exact HD|].
  fold (clientManifest env). fold (serverManifest env).
  intros file manifest Hfile. eexists. split_and!; [|reflexivity| |].
  - change (files w' !! file = Some (manifestText manifest)).
    rewrite <- render_manifestText, Hf.
    destruct Hfile as [[-> ->]|[-> ->]].
    + rewrite lookup_insert_ne by (symmetry; apply clientFile_ne_serverFile).
      by rewrite lookup_insert_eq.
    + by rewrite lookup_insert_eq.
  - destruct Hfile as [[_ ->]|[_ ->]]; apply manifests_wellFormed.
  - intros Hlf. apply (splitOn_statements (λ p, "import '" +:+ p +:+ "';")).
    eapply Forall_impl; [exact Hlf|]. intros p Hp. simpl.
    by rewrite !hasChar_app, Hp.
Qed.

Lemma C7_witness :
  loadPlugins demoHost staleWorld
    = (Returned tt, (loadPlugins demoHost staleWorld).2) ∧
  ∃ core included custom w0,
    discover demoHost staleWorld = (Returned (core, included, custom), w0) ∧
    ∀ file manifest,
      (file = clientFile demoHost ∧ manifest = clientImports core included custom) ∨
      (file = serverFile demoHost ∧ manifest = serverImports core included custom) →
      ∃ body,
        files (loadPlugins demoHost staleWorld).2 !! file
          = Some (generatedWarning +:+ body) ∧
        body = concatLines
                 ((λ p, ("import '" +:+ p +:+ "';") +:+ String lineFeed EmptyString)
                  <$> manifest) ∧
        Forall wellFormedPath manifest ∧
        (Forall (λ p, hasChar lineFeed p = false) manifest →
         splitOn lineFeed body
         = ((λ p, "import '" +:+ p +:+ "';") <$> manifest) ++ [EmptyString]).
Proof.
  assert (loadPlugins demoHost staleWorld
          = (Returned tt, (loadPlugins demoHost staleWorld).2)) as Hrun
    by (vm_compute; reflexivity).
  split; [exact Hrun|].
  exact (C7_generated_file_content demoHost staleWorld _ Hrun).
Defined.

(** C7 as stated fails for a plugin directory whose name holds a line
    feed: the run returns, the client manifest has one entry, and the
    client file has two lines after the warning, neither of them an
    import statement of the stated form. *)
Lemma C7_entry_over_two_lines :
  let w' := (loadPlugins lineFeedHost emptyWorld).2 in
  loadPlugins lineFeedHost emptyWorld = (Returned tt, w') ∧
  clientManifest lineFeedHost
    = [ "/imports/plugins/core/a" +:+ String lineFeed "b/client" ] ∧
  ∃ body,
    files w' !! clientFile lineFeedHost = Some (generatedWarning +:+ body) ∧
    splitOn lineFeed body
      = [ "import '/imports/plugins/core/a"; "b/client';"; EmptyString ] ∧
    splitOn lineFeed body
      ≠ ((λ p, "import '" +:+ p +:+ "';") <$> clientManifest lineFeedHost)
        ++ [EmptyString].
Proof.
  cbv zeta. split; [vm_compute; reflexivity|].
  split; [vm_compute; reflexivity|].
  exists (concatLines
            ((λ p, ("import '" +:+ p +:+ "';") +:+ String lineFeed EmptyString)
             <$> clientManifest lineFeedHost)).
  split; [vm_compute; reflexivity|].
  split; [vm_compute; reflexivity|].
  vm_compute. discriminate.
Qed.

(** C8: two runs of the same host that return leave the same content in
    the two generated files, whatever the files held before each run; in
    particular a second run on the files the first one left changes
    nothing. *)
Theorem C8_rerun_identical (env : Env) (w1 w1' w2 w2' : World) :
  loadPlugins env w1 = (Returned tt, w1') →
  loadPlugins env w2 = (Returned tt, w2') →
  files w1' !! clientFile env = files w2' !! clientFile env ∧
  files w1' !! serverFile env = files w2' !! serverFile env ∧
  (files w2 = files w1' → files w2' = files w1').
Proof.
  intros H1 H2.
  apply loadPlugins_returned in H1 as (_ & _ & Hf1).
  apply loadPlugins_returned in H2 as (_ & _ & Hf2).
  rewrite Hf1, Hf2. split_and!.
  - by rewrite !(lookup_insert_ne _ (serverFile env) (clientFile env))
         by (symmetry; apply clientFile_ne_serverFile);
       rewrite !lookup_insert_eq.
  - by rewrite !lookup_insert_eq.
  - intros ->. apply map_eq. intros k.
    rewrite !lookup_insert. by repeat case_decide.
Qed.

Lemma C8_witness :
  let w1' := (loadPlugins demoHost staleWorld).2 in
  let w2' := (loadPlugins demoHost w1').2 in
  (loadPlugins demoHost staleWorld = (Returned tt, w1') ∧
   loadPlugins demoHost w1' = (Returned tt, w2')) ∧
  files w1' !! clientFile demoHost = files w2' !! clientFile demoHost ∧
  files w1' !! serverFile demoHost = files w2' !! serverFile demoHost ∧
  (files w1' = files w1' → files w2' = files w1').
Proof.
  cbv zeta.
  assert (loadPlugins demoHost staleWorld
          = (Returned tt, (loadPlugins demoHost staleWorld).2)) as H1
    by (vm_compute; reflexivity).
  assert (loadPlugins demoHost (loadPlugins demoHost staleWorld).2
          = (Returned tt,
             (loadPlugins demoHost (loadPlugins demoHost staleWorld).2).2)) as H2
    by (vm_compute; reflexivity).
  split; [by split|].
  exact (C8_rerun_identical demoHost _ _ _ _ H1 H2).
Defined.

(** C9: when the discovery has passed and the run ends the process, a
    write failed either while the client file was produced, and then the
    server file is as it was before the run, or while the server file was
    produced, and then the client file holds its complete manifest. *)
Theorem C9_other_target_not_half_written (env : Env) (w w0 w' : World)
    (core included custom : ImportPaths) (c : nat) :
  discover env w = (Returned (core, included, custom), w0) →
  loadPlugins env w = (Exited c, w') →
  (generateImportsFile env (clientFile env)
     (clientImports core included custom) w0 = (Exited c, w') ∧
   files w' !! serverFile env = files w !! serverFile env)
  ∨
  (∃ w1,
     generateImportsFile env (clientFile env)
       (clientImports core included custom) w0 = (Returned tt, w1) ∧
     generateImportsFile env (serverFile env)
       (serverImports core included custom) w1 = (Exited c, w') ∧
     files w' !! clientFile env
       = Some (render (clientImports core included custom))).
Proof.
  intros HD Hrun. rewrite loadPlugins_phases, HD in Hrun.
  pose proof (discover_spec env w) as HS. rewrite HD in HS.
  destruct HS as (_ & _ & _ & Hf0 & _ & _).
  pose proof (generateImportsFile_spec env (clientFile env)
    (clientImports core included custom) w0) as HC.
  destruct (generateImportsFile env (clientFile env) _ w0) as [[[]| |k] w1];
    [|done|].
  - right. exists w1. split; [done|].
    destruct HC as (Hf1 & _ & _).
    pose proof (generateImportsFile_spec env (serverFile env)
      (serverImports core included custom) w1) as HS.
    rewrite Hrun in HS. destruct HS as (_ & _ & Hframe & _).
    split; [done|].
    rewrite Hframe by apply clientFile_ne_serverFile.
    by rewrite Hf1, lookup_insert_eq.
  - left. injection Hrun as -> ->. split; [done|].
    destruct HC as (_ & _ & Hframe & _).
    rewrite Hframe by (symmetry; apply clientFile_ne_serverFile).
    by rewrite Hf0.
Qed.

Lemma C9_witness :
  let env := serverReadOnlyHost in
  let core := tierImportPaths env Core in
  let included := tierImportPaths env Included in
  let custom := tierImportPaths env Custom in
  let w0 := (discover env staleWorld).2 in
  let w' := (loadPlugins env staleWorld).2 in
  (discover env staleWorld = (Returned (core, included, custom), w0) ∧
   loadPlugins env staleWorld = (Exited 1, w')) ∧
  ((generateImportsFile env (clientFile env)
      (clientImports core included custom) w0 = (Exited 1, w') ∧
    files w' !! serverFile env = files staleWorld !! serverFile env)
   ∨
   (∃ w1,
      generateImportsFile env (clientFile env)
        (clientImports core included custom) w0 = (Returned tt, w1) ∧
      generateImportsFile env (serverFile env)
        (serverImports core included custom) w1 = (Exited 1, w') ∧
      files w' !! clientFile env
        = Some (render (clientImports core included custom)))).
Proof.
  cbv zeta.
  assert (discover serverReadOnlyHost staleWorld
          = (Returned (tierImportPaths serverReadOnlyHost Core,
                       tierImportPaths serverReadOnlyHost Included,
                       tierImportPaths serverReadOnlyHost Custom),
             (discover serverReadOnlyHost staleWorld).2)) as HD
    by (vm_compute; reflexivity).
  assert (loadPlugins serverReadOnlyHost staleWorld
          = (Exited 1, (loadPlugins serverReadOnlyHost staleWorld).2)) as HR
    by (vm_compute; reflexivity).
  split; [by split|].
  exact (C9_other_target_not_half_written serverReadOnlyHost _ _ _ _ _ _ _
           HD HR).
Defined.

(** ** The filter *)

Lemma pluginDirs_not_excluded (env : Env) (base d : string) :
  d ∈ pluginDirs env base →
  d ∈ getDirectories env base ∧ excluded env d = false.
Proof.
  unfold pluginDirs, JS.reject, excluded. intros Hd.
  apply list_elem_of_In, List.filter_In in Hd as [Hd Hx].
  split; [by apply list_elem_of_In|]. by apply negb_true_iff.
Qed.

Lemma excluded_spec (env : Env) (d : string) :
  excluded env d = true ↔
  JS.charAt0IsDot d = true ∨ d ∈ disabledPlugins env.
Proof.
  unfold excluded, JS.arrayIncludes.
  rewrite orb_true_iff, bool_decide_eq_true. done.
Qed.

Lemma reject_without (pred : string → bool) (d : string) (xs : list string) :
  pred d = true →
  JS.reject pred (List.filter (λ x, negb (bool_decide (x = d))) xs)
  = JS.reject pred xs.
Proof.
  intros Hd. unfold JS.reject.
  induction xs as [|x xs IH]; [done|]. simpl.
  destruct (bool_decide (x = d)) eqn:Hx; simpl.
  - apply bool_decide_eq_true in Hx as ->. by rewrite Hd.
  - destruct (pred x); simpl; by rewrite IH.
Qed.

Lemma pluginDirs_withoutDir (env : Env) (d base : string) :
  excluded env d = true →
  pluginDirs (withoutDir d env) base = pluginDirs env base.
Proof.
  intros Hd. unfold pluginDirs. simpl.
  by apply (reject_without
              (λ x, JS.charAt0IsDot x || JS.arrayIncludes (disabledPlugins env) x)).
Qed.

Lemma getImportPaths_withoutDir (env : Env) (d base : string) :
  excluded env d = true →
  getImportPaths (withoutDir d env) base = getImportPaths env base.
Proof.
  intros Hd. unfold getImportPaths. by rewrite pluginDirs_withoutDir.
Qed.

Lemma discover_withoutDir (env : Env) (d : string) :
  excluded env d = true →
  discover (withoutDir d env) = discover env.
Proof.
  intros Hd. unfold discover. by rewrite !getImportPaths_withoutDir.
Qed.

Lemma loadPlugins_withoutDir (env : Env) (d : string) :
  excluded env d = true →
  loadPlugins (withoutDir d env) = loadPlugins env.
Proof.
  intros Hd. unfold loadPlugins. by rewrite !getImportPaths_withoutDir.
Qed.

(** C3: a directory whose name starts with a dot or is listed in
    [disabledPlugins] is not among the plugin directories of any base
    path, and the run, with the import paths it finds and the two files it
    writes, is the one of a host where that directory does not exist. *)
Theorem C3_excluded_directory_contributes_nothing (env : Env) (d : string)
    (w : World) :
  JS.charAt0IsDot d = true ∨ d ∈ disabledPlugins env →
  (∀ base, d ∉ pluginDirs env base) ∧
  discover env w = discover (withoutDir d env) w ∧
  (loadPlugins env w).1 = (loadPlugins (withoutDir d env) w).1 ∧
  files (loadPlugins env w).2 = files (loadPlugins (withoutDir d env) w).2.
Proof.
  intros Hd. apply excluded_spec in Hd. split_and!.
  - intros base Hin. apply pluginDirs_not_excluded in Hin as [_ Hin]. congruence.
  - by rewrite discover_withoutDir.
  - by rewrite loadPlugins_withoutDir.
  - by rewrite loadPlugins_withoutDir.
Qed.

Lemma C3_witness :
  (JS.charAt0IsDot "B" = true ∨ "B" ∈ disabledPlugins demoHost) ∧
  (∀ base, "B" ∉ pluginDirs demoHost base) ∧
  discover demoHost emptyWorld = discover (withoutDir "B" demoHost) emptyWorld ∧
  (loadPlugins demoHost emptyWorld).1
    = (loadPlugins (withoutDir "B" demoHost) emptyWorld).1 ∧
  files (loadPlugins demoHost emptyWorld).2
    = files (loadPlugins (withoutDir "B" demoHost) emptyWorld).2.
Proof.
  assert (JS.charAt0IsDot "B" = true ∨ "B" ∈ disabledPlugins demoHost) as Hd
    by (right; vm_compute; constructor).
  split; [exact Hd|].
  exact (C3_excluded_directory_contributes_nothing demoHost "B" emptyWorld Hd).
Defined.

(** C10: the only commands a run starts are the installs of directories
    that passed the filter and hold a [package.json]; a directory the
    filter rejects starts none, whatever it holds: the commands of the run
    are those of a host where that directory does not exist. *)
Theorem C10_no_install_for_excluded (env : Env) (d : string) (w : World) :
  JS.charAt0IsDot d = true ∨ d ∈ disabledPlugins env →
  execs (loadPlugins env w).2 = execs (loadPlugins (withoutDir d env) w).2 ∧
  ∃ new, execs (loadPlugins env w).2 = execs w ++ new ∧
    Forall (λ cmd, ∃ t p,
              p ∈ getDirectories env (tierPath env t) ∧
              p ≠ d ∧ excluded env p = false ∧
              hasPackageJson env (tierPath env t) p = true ∧
              cmd = npmInstall (tierPath env t) p) new.
Proof.
  intros Hd. apply excluded_spec in Hd. split.
  { by rewrite loadPlugins_withoutDir. }
  assert (onlyEligibleInstalls env w (loadPlugins env w).2) as (new & Hex & Hall).
  { rewrite loadPlugins_phases.
    pose proof (discover_spec env w) as HD.
    destruct (discover env w) as [[[[c i] u]| |k] w0]; [|done|].
    2:{ by destruct HD as (_ & _ & _ & He). }
    destruct HD as (_ & _ & _ & _ & _ & He).
    pose proof (generateImportsFile_spec env (clientFile env)
      (clientImports c i u) w0) as HC.
    destruct (generateImportsFile env (clientFile env) _ w0) as [[?| |k] w1];
      [|done|].
    2:{ destruct HC as (_ & Hx & _). destruct He as (new & He & Hall).
        exists new. simpl. by rewrite Hx. }
    destruct HC as (_ & _ & Hx1).
    pose proof (generateImportsFile_spec env (serverFile env)
      (serverImports c i u) w1) as HS.
    destruct (generateImportsFile env (serverFile env) _ w1) as [[?| |k] w2];
      [|done|]; destruct He as (new & He & Hall); exists new; simpl.
    - destruct HS as (_ & _ & Hx2). by rewrite Hx2, Hx1.
    - destruct HS as (_ & Hx2 & _). by rewrite Hx2, Hx1. }
  exists new. split; [done|].
  eapply Forall_impl; [exact Hall|].
  intros cmd (t & p & Hin & Hpkg & ->).
  apply pluginDirs_not_excluded in Hin as [Hin Hex'].
  exists t, p. split_and!; try done. intros ->. congruence.
Qed.

Lemma C10_witness :
  (JS.charAt0IsDot ".git" = true ∨ ".git" ∈ disabledPlugins demoHost) ∧
  hasPackageJson demoHost (tierPath demoHost Core) ".git" = true ∧
  execs (loadPlugins demoHost emptyWorld).2
    = [npmInstall (tierPath demoHost Core) "A"] ∧
  execs (loadPlugins demoHost emptyWorld).2
    = execs (loadPlugins (withoutDir ".git" demoHost) emptyWorld).2.
Proof.
  assert (JS.charAt0IsDot ".git" = true ∨ ".git" ∈ disabledPlugins demoHost)
    as Hd by (left; vm_compute; reflexivity).
  split_and!.
  - exact Hd.
  - vm_compute. reflexivity.
  - vm_compute. reflexivity.
  - exact (proj1 (C10_no_install_for_excluded demoHost ".git" emptyWorld Hd)).
Defined.

(** ** Import paths *)

(** For a plugin directory whose path is free of [/index.js], the client
    and server import paths are those of the directories that hold the
    entry files, and the registration import path is that of the file. *)
Lemma pluginPaths_entry_directories (env : Env) (base plugin : string) :
  JS.includes "/index.js" (base +:+ plugin) = false →
  pluginPaths env base plugin =
  {| client :=
       if fsExists env ((base +:+ plugin) +:+ "/client/index.js")
       then [getImportPath env ((base +:+ plugin) +:+ "/client")] else [];
     server :=
       if fsExists env ((base +:+ plugin) +:+ "/server/index.js")
       then [getImportPath env ((base +:+ plugin) +:+ "/server")] else [];
     registry :=
       if fsExists env ((base +:+ plugin) +:+ "/register.js")
       then [getImportPath env ((base +:+ plugin) +:+ "/register.js")] else [] |}.
Proof.
  intros Hfree. unfold pluginPaths.
  change ((base +:+ plugin) +:+ "/client/index.js")
    with ((base +:+ plugin) +:+ String "/" (String "c" "lient") +:+ "/index.js").
  change ((base +:+ plugin) +:+ "/server/index.js")
    with ((base +:+ plugin) +:+ String "/" (String "s" "erver") +:+ "/index.js").
  by rewrite !replace_entry_file.
Qed.

Example foo_import_paths :
  (discover fooHost emptyWorld).1
  = Returned ({| client := ["/imports/plugins/core/foo/client"];
                 server := [];
                 registry := ["/imports/plugins/core/foo/register.js"] |},
              noPaths, noPaths).
Proof. vm_compute. reflexivity. Qed.

(** C4, evaluated where it fails: for the core plugin directory
    [index.js], which passes the filter and has a client entry,
    [getImportPaths] returns the client import path
    [/imports/plugins/core/client/index.js]: [replace] removed the first
    [/index.js], the directory's own name, and left the file name in
    place. The path of the directory that holds the entry file is
    [/imports/plugins/core/index.js/client]. *)
Theorem C4_index_js_directory :
  excluded indexJsHost "index.js" = false ∧
  fsExists indexJsHost
    "/home/app//imports/plugins/core/index.js/client/index.js" = true ∧
  (discover indexJsHost emptyWorld).1
  = Returned ({| client := ["/imports/plugins/core/client/index.js"];
                 server := []; registry := [] |},
              noPaths, noPaths) ∧
  getImportPath indexJsHost "/home/app//imports/plugins/core/index.js/client"
  = "/imports/plugins/core/index.js/client".
Proof. split_and!; vm_compute; reflexivity. Qed.

(** ** Write failures *)

(** [generateImportsFile] never lets an exception out, and when it ends
    the process the status is 1 and the last line logged is one of its
    two error messages. *)
Lemma write_failure_is_fatal (env : Env) (file : string)
    (imports : list string) (w : World) :
  match generateImportsFile env file imports w with
  | (Returned _, w') => logs w' = logs w
  | (Thrown, _) => False
  | (Exited c, w') =>
      c = 1 ∧
      (last (logs w') = Some (LogError (resetFailedMsg file)) ∨
       ∃ p, p ∈ imports ∧ last (logs w') = Some (LogError (appendFailedMsg p)))
  end.
Proof.
  pose proof (generateImportsFile_spec env file imports w) as H.
  destruct (generateImportsFile env file imports w) as [[?| |c] w']; [|done|].
  - by destruct H as (_ & Hl & _).
  - destruct H as (-> & _ & _ & [Hl|(pre & p & post & -> & _ & Hl)]).
    + split; [done|]. left. by rewrite Hl, last_snoc.
    + split; [done|]. right. exists p. split.
      * apply elem_of_app. right. by left.
      * by rewrite Hl, last_snoc.
Qed.

(** C6, evaluated where it fails: when the append of the first import
    line to the client file fails, the run ends the process with status 1
    and the error it logs names the import path, in which the destination
    file [/home/app//client/plugins.js] does not occur. *)
Theorem C6_append_failure_names_import_path :
  let r := loadPlugins appendFailsHost emptyWorld in
  clientFile appendFailsHost = "/home/app//client/plugins.js" ∧
  r.1 = Exited 1 ∧
  last (logs r.2)
    = Some (LogError
        "Failed to write to plugins file at /imports/plugins/core/A/client") ∧
  JS.includes "/home/app//client/plugins.js"
    "Failed to write to plugins file at /imports/plugins/core/A/client" = false.
Proof. cbv zeta. split_and!; vm_compute; reflexivity. Qed.

(** The reset of a file that cannot be written names the file. *)
Example reset_failure_names_file :
  let r := loadPlugins serverReadOnlyHost emptyWorld in
  r.1 = Exited 1 ∧
  last (logs r.2)
    = Some (LogError "Failed to reset plugins file at /home/app//server/plugins.js").
Proof. cbv zeta. split; vm_compute; reflexivity. Qed.

(** ** The scenario of the specification *)

Example scenario_manifests :
  clientManifest scenarioHost
    = ["/imports/plugins/core/A/client"; "/imports/plugins/included/C/client"] ∧
  serverManifest scenarioHost = ["/imports/plugins/core/A/server"] ∧
  (loadPlugins scenarioHost emptyWorld).1 = Returned tt ∧
  files (loadPlugins scenarioHost emptyWorld).2 !! "/home/app//client/plugins.js"
    = Some (render ["/imports/plugins/core/A/client";
                    "/imports/plugins/included/C/client"]).
Proof. split_and!; vm_compute; reflexivity. Qed.

(** * Further properties of the loader *)

(** ** The installs of a run *)

Section InstallTrace.
Context (env : Env) (base : string).

(** The loop of [getImportPaths] with everything it logs and starts. *)
Lemma pluginLoop_trace (dirs : list string) (acc : ImportPaths) (w : World) :
  match forEach dirs (pluginStep env base) acc w with
  | (Returned r, w') =>
      logs w' = logs w ++ installLines env base dirs ∧
      execs w' = execs w ++ installCommands env base dirs
  | (Thrown, _) => False
  | (Exited c, w') =>
      ∃ pre q post, dirs = pre ++ q :: post ∧
        installsPass env base pre ∧
        hasPackageJson env base q = true ∧ installOk env base q = false ∧
        logs w' = logs w ++ installLines env base pre
                  ++ [LogInfo (installingMsg q); LogError (installFailedMsg q)] ∧
        execs w' = execs w ++ installCommands env base pre ++ [npmInstall base q]
  end.
Proof.
  revert acc w. induction dirs as [|p dirs IH]; intros acc w.
  - simpl. by rewrite !app_nil_r.
  - rewrite run_forEach_cons, pluginStep_run. cbv zeta.
    unfold installLines, installCommands in *. simpl List.filter.
    destruct (hasPackageJson env base p) eqn:Hpkg.
    + destruct (installOk env base p) eqn:Hok.
      * specialize (IH (appendPaths acc (pluginPaths env base p))
                       (started (npmInstall base p)
                          (logged (LogInfo (installingMsg p)) w))).
        destruct (forEach dirs _ _ _) as [[r| |c] w']; [|done|].
        -- destruct IH as (Hl & Hx). rewrite Hl, Hx. simpl.
           by rewrite <- !app_assoc.
        -- destruct IH as (pre & q & post & -> & Hpre & Hq & Hnok & Hl & Hx).
           exists (p :: pre), q, post. split_and!; try done.
           ++ constructor; done.
           ++ rewrite Hl. simpl. rewrite Hpkg. simpl. by rewrite <- !app_assoc.
           ++ rewrite Hx. simpl. rewrite Hpkg. simpl. by rewrite <- !app_assoc.
      * exists [], p, dirs. split_and!; try done.
        -- constructor.
        -- simpl. by rewrite <- !app_assoc.
    + specialize (IH (appendPaths acc (pluginPaths env base p)) w).
      destruct (forEach dirs _ _ _) as [[r| |c] w']; [done|done|].
      destruct IH as (pre & q & post & -> & Hpre & Hq & Hnok & Hl & Hx).
      exists (p :: pre), q, post. split_and!; try done.
      * constructor; [congruence|done].
      * rewrite Hl. simpl. by rewrite Hpkg.
      * rewrite Hx. simpl. by rewrite Hpkg.
Qed.
End InstallTrace.

Lemma getImportPaths_trace (env : Env) (t : Tier) (w : World) :
  match getImportPaths env (tierPath env t) w with
  | (Returned r, w') =>
      installsPass env (tierPath env t) (pluginDirs env (tierPath env t)) ∧
      logs w' = logs w ++ tiersLines env [t] ∧
      execs w' = execs w ++ tiersCommands env [t]
  | (Thrown, _) => False
  | (Exited c, w') =>
      ∃ pre q post, pluginDirs env (tierPath env t) = pre ++ q :: post ∧
        installsPass env (tierPath env t) pre ∧
        hasPackageJson env (tierPath env t) q = true ∧
        installOk env (tierPath env t) q = false ∧
        logs w' = logs w ++ installLines env (tierPath env t) pre
                  ++ [LogInfo (installingMsg q); LogError (installFailedMsg q)] ∧
        execs w' = execs w ++ installCommands env (tierPath env t) pre
                   ++ [npmInstall (tierPath env t) q]
  end.
Proof.
  pose proof (getImportPaths_spec env t w) as HS.
  unfold getImportPaths in *.
  pose proof (pluginLoop_trace env (tierPath env t)
                (pluginDirs env (tierPath env t))
                {| client := []; server := []; registry := [] |} w) as HT.
  destruct (forEach _ _ _ _) as [[r| |c] w']; [|done..].
  destruct HS as (_ & _ & Hpass & _). destruct HT as (Hl & Hx).
  unfold tiersLines, tiersCommands. simpl. by rewrite !app_nil_r.
Qed.

(** The discovery with everything it logs and starts: on return the
    installs of the three tiers, in their order; otherwise the installs
    up to the first one that fails. *)
Lemma discover_trace (env : Env) (w : World) :
  match discover env w with
  | (Returned _, w') =>
      logs w' = logs w ++ tiersLines env allTiers ∧
      execs w' = execs w ++ tiersCommands env allTiers
  | (Thrown, _) => False
  | (Exited c, w') =>
      ∃ t pre q post, pluginDirs env (tierPath env t) = pre ++ q :: post ∧
        (∀ t', t' ∈ tiersBefore t →
           installsPass env (tierPath env t') (pluginDirs env (tierPath env t'))) ∧
        installsPass env (tierPath env t) pre ∧
        hasPackageJson env (tierPath env t) q = true ∧
        installOk env (tierPath env t) q = false ∧
        logs w' = logs w ++ tiersLines env (tiersBefore t)
                  ++ installLines env (tierPath env t) pre
                  ++ [LogInfo (installingMsg q); LogError (installFailedMsg q)] ∧
        execs w' = execs w ++ tiersCommands env (tiersBefore t)
                   ++ installCommands env (tierPath env t) pre
                   ++ [npmInstall (tierPath env t) q]
  end.
Proof.
  unfold discover. rewrite run_bind.
  pose proof (getImportPaths_trace env Core w) as HC.
  change (tierPath env Core) with (corePlugins env) in HC at 1.
  destruct (getImportPaths env (corePlugins env) w) as [[c| |k] w1]; [|done|].
  2:{ destruct HC as (pre & q & post & Hd & Hpre & Hq & Hnok & Hl & Hx).
      exists Core, pre, q, post. split_and!; try done.
      intros t' Ht'. by apply elem_of_nil in Ht'. }
  destruct HC as (Hp1 & Hl1 & Hx1). rewrite run_bind.
  pose proof (getImportPaths_trace env Included w1) as HI.
  change (tierPath env Included) with (includedPlugins env) in HI at 1.
  destruct (getImportPaths env (includedPlugins env) w1) as [[i| |k] w2]; [|done|].
  2:{ destruct HI as (pre & q & post & Hd & Hpre & Hq & Hnok & Hl & Hx).
      exists Included, pre, q, post. split_and!; try done.
      - intros t' Ht'. apply list_elem_of_singleton in Ht' as ->. done.
      - rewrite Hl, Hl1. by rewrite <- !app_assoc.
      - rewrite Hx, Hx1. by rewrite <- !app_assoc. }
  destruct HI as (Hp2 & Hl2 & Hx2). rewrite run_bind.
  pose proof (getImportPaths_trace env Custom w2) as HU.
  change (tierPath env Custom) with (customPlugins env) in HU at 1.
  destruct (getImportPaths env (customPlugins env) w2) as [[u| |k] w3]; [|done|].
  2:{ destruct HU as (pre & q & post & Hd & Hpre & Hq & Hnok & Hl & Hx).
      exists Custom, pre, q, post. split_and!; try done.
      - intros t' Ht'. apply elem_of_cons in Ht' as [->|Ht']; [done|].
        apply list_elem_of_singleton in Ht' as ->. done.
      - rewrite Hl, Hl2, Hl1. unfold tiersLines. simpl.
        by rewrite <- !app_assoc.
      - rewrite Hx, Hx2, Hx1. unfold tiersCommands. simpl.
        by rewrite <- !app_assoc. }
  destruct HU as (Hp3 & Hl3 & Hx3). simpl. split.
  - rewrite Hl3, Hl2, Hl1. unfold tiersLines. simpl. by rewrite <- !app_assoc.
  - rewrite Hx3, Hx2, Hx1. unfold tiersCommands. simpl. by rewrite <- !app_assoc.
Qed.

Lemma world_eq (w : World) (f : gmap string string) (l : list LogEntry)
    (x : list string) :
  files w = f → logs w = l → execs w = x →
  w = {| files := f; logs := l; execs := x |}.
Proof. destruct w; simpl. by intros -> -> ->. Qed.

(** X1: a run that returns has started the install command of every
    eligible plugin directory that holds a [package.json], once for each
    listing of the directory, in the order of the listings, the core tier
    first, then the included and the custom tier, and has logged the
    line announcing each install and nothing else. *)
Theorem returning_run_install_trace (env : Env) (w w' : World) :
  loadPlugins env w = (Returned tt, w') →
  execs w' = execs w ++ tiersCommands env allTiers ∧
  logs w' = logs w ++ tiersLines env allTiers.
Proof.
  rewrite loadPlugins_phases.
  pose proof (discover_trace env w) as HD.
  destruct (discover env w) as [[[[c i] u]| |k] w0]; [|done..].
  destruct HD as (Hl0 & Hx0).
  pose proof (generateImportsFile_spec env (clientFile env)
    (clientImports c i u) w0) as HC.
  destruct (generateImportsFile env (clientFile env) _ w0) as [[?| |k] w1];
    [|done..].
  destruct HC as (_ & Hl1 & Hx1).
  pose proof (generateImportsFile_spec env (serverFile env)
    (serverImports c i u) w1) as HS.
  destruct (generateImportsFile env (serverFile env) _ w1) as [[?| |k] w2];
    [|done..].
  destruct HS as (_ & Hl2 & Hx2).
  intros [= _ <-]. split; congruence.
Qed.

Lemma returning_run_install_trace_witness :
  loadPlugins demoHost staleWorld
    = (Returned tt, (loadPlugins demoHost staleWorld).2) ∧
  tiersCommands demoHost allTiers
    = ["cd /home/app//imports/plugins/core/A && meteor npm i"] ∧
  execs (loadPlugins demoHost staleWorld).2
    = execs staleWorld ++ tiersCommands demoHost allTiers ∧
  logs (loadPlugins demoHost staleWorld).2
    = logs staleWorld ++ tiersLines demoHost allTiers.
Proof.
  assert (loadPlugins demoHost staleWorld
          = (Returned tt, (loadPlugins demoHost staleWorld).2)) as Hrun
    by (vm_compute; reflexivity).
  split; [exact Hrun|]. split; [vm_compute; reflexivity|].
  exact (returning_run_install_trace demoHost staleWorld _ Hrun).
Defined.

(** X2: when the install of some plugin fails, the run ends the process
    at the first failing install in the order of processing: the installs
    of the earlier tiers and of the earlier directories of its tier all
    passed and are the only other commands started, and the last two
    lines logged announce that install and report its failure. *)
Theorem run_stops_at_first_failing_install (env : Env) (w : World) (t : Tier)
    (p : string) :
  p ∈ pluginDirs env (tierPath env t) →
  hasPackageJson env (tierPath env t) p = true →
  installOk env (tierPath env t) p = false →
  ∃ w' t' pre q post,
    loadPlugins env w = (Exited 1, w') ∧
    pluginDirs env (tierPath env t') = pre ++ q :: post ∧
    (∀ t'', t'' ∈ tiersBefore t' →
       installsPass env (tierPath env t'') (pluginDirs env (tierPath env t''))) ∧
    installsPass env (tierPath env t') pre ∧
    hasPackageJson env (tierPath env t') q = true ∧
    installOk env (tierPath env t') q = false ∧
    logs w' = logs w ++ tiersLines env (tiersBefore t')
              ++ installLines env (tierPath env t') pre
              ++ [LogInfo (installingMsg q); LogError (installFailedMsg q)] ∧
    execs w' = execs w ++ tiersCommands env (tiersBefore t')
               ++ installCommands env (tierPath env t') pre
               ++ [npmInstall (tierPath env t') q].
Proof.
  intros Hin Hpkg Hnok. rewrite loadPlugins_phases.
  pose proof (discover_spec env w) as HS.
  pose proof (discover_trace env w) as HT.
  destruct (discover env w) as [[[[c i] u]| |k] w0]; [|done|].
  - exfalso. destruct HS as (_ & _ & _ & _ & Hpass & _).
    specialize (Hpass t). unfold installsPass in Hpass.
    rewrite Forall_forall in Hpass. specialize (Hpass p Hin Hpkg). congruence.
  - destruct HS as (-> & _).
    destruct HT as (t' & pre & q & post & HT). by exists w0, t', pre, q, post.
Qed.

Lemma run_stops_at_first_failing_install_witness :
  ("A" ∈ pluginDirs installFailsHost (tierPath installFailsHost Core) ∧
   hasPackageJson installFailsHost (tierPath installFailsHost Core) "A" = true ∧
   installOk installFailsHost (tierPath installFailsHost Core) "A" = false) ∧
  ∃ w' t' pre q post,
    loadPlugins installFailsHost staleWorld = (Exited 1, w') ∧
    pluginDirs installFailsHost (tierPath installFailsHost t') = pre ++ q :: post ∧
    (∀ t'', t'' ∈ tiersBefore t' →
       installsPass installFailsHost (tierPath installFailsHost t'')
         (pluginDirs installFailsHost (tierPath installFailsHost t''))) ∧
    installsPass installFailsHost (tierPath installFailsHost t') pre ∧
    hasPackageJson installFailsHost (tierPath installFailsHost t') q = true ∧
    installOk installFailsHost (tierPath installFailsHost t') q = false ∧
    logs w' = logs staleWorld ++ tiersLines installFailsHost (tiersBefore t')
              ++ installLines installFailsHost (tierPath installFailsHost t') pre
              ++ [LogInfo (installingMsg q); LogError (installFailedMsg q)] ∧
    execs w' = execs staleWorld ++ tiersCommands installFailsHost (tiersBefore t')
               ++ installCommands installFailsHost (tierPath installFailsHost t') pre
               ++ [npmInstall (tierPath installFailsHost t') q].
Proof.
  assert ("A" ∈ pluginDirs installFailsHost (tierPath installFailsHost Core))
    as Hin by (vm_compute; constructor).
  assert (hasPackageJson installFailsHost (tierPath installFailsHost Core) "A" = true)
    as Hpkg by (vm_compute; reflexivity).
  assert (installOk installFailsHost (tierPath installFailsHost Core) "A" = false)
    as Hnok by (vm_compute; reflexivity).
  split; [by split_and!|].
  exact (run_stops_at_first_failing_install installFailsHost staleWorld Core "A"
           Hin Hpkg Hnok).
Defined.

(** X3: the discovery of the three tiers returns exactly when every
    eligible plugin directory that holds a [package.json] installs; a
    directory without one never stops it. *)
Theorem discovery_returns_iff_installs_pass (env : Env) (w : World) :
  (∃ r w', discover env w = (Returned r, w')) ↔ allInstallsPass env.
Proof.
  pose proof (discover_spec env w) as HS. split.
  - intros (r & w' & Hd). rewrite Hd in HS. destruct r as [[c i] u].
    by destruct HS as (_ & _ & _ & _ & Hpass & _).
  - intros Hpass.
    destruct (discover env w) as [[r| |k] w0]; [by eauto|done|].
    exfalso. destruct HS as (_ & _ & (t & q & Hin & Hpkg & Hnok & _) & _).
    specialize (Hpass t). unfold installsPass in Hpass.
    rewrite Forall_forall in Hpass. specialize (Hpass q Hin Hpkg). congruence.
Qed.

(** ** The files of a run *)

(** X4: whether it returns or ends the process, [generateImportsFile]
    starts no command and leaves every file as it was whose resolved path
    is not the resolved path of its destination. *)
Theorem emission_touches_only_its_file (env : Env) (file : string)
    (imports : list string) (w : World) (f : string) :
  Path.resolve (cwd env) f ≠ Path.resolve (cwd env) file →
  files (generateImportsFile env file imports w).2 !! f = files w !! f ∧
  execs (generateImportsFile env file imports w).2 = execs w.
Proof.
  intros Hres. assert (f ≠ file) as Hne by (by intros ->).
  pose proof (generateImportsFile_spec env file imports w) as HS.
  destruct (generateImportsFile env file imports w) as [[?| |k] w1];
    [|done|]; simpl.
  - destruct HS as (Hf & _ & Hx). split; [|done].
    by rewrite Hf, lookup_insert_ne.
  - destruct HS as (_ & Hx & Hfr & _). split; [|done]. by apply Hfr.
Qed.

Lemma emission_touches_only_its_file_witness :
  let env := diskFullHost in
  let r := generateImportsFile env (serverFile env) (serverManifest env)
             staleWorld in
  Path.resolve (cwd env) (clientFile env)
    ≠ Path.resolve (cwd env) (serverFile env) ∧
  r.1 = Exited 1 ∧
  files r.2 !! clientFile env = files staleWorld !! clientFile env ∧
  execs r.2 = execs staleWorld.
Proof.
  cbv zeta.
  assert (Path.resolve (cwd diskFullHost) (clientFile diskFullHost)
          ≠ Path.resolve (cwd diskFullHost) (serverFile diskFullHost)) as Hres
    by (vm_compute; discriminate).
  split; [exact Hres|]. split; [vm_compute; reflexivity|].
  exact (emission_touches_only_its_file diskFullHost (serverFile diskFullHost)
           (serverManifest diskFullHost) staleWorld (clientFile diskFullHost) Hres).
Defined.

Section Writable.
Context (env : Env) (Hwritable : alwaysWritable env) (file : string).

Lemma appendLoop_writable (imports : list string) (content : string) (w : World) :
  files w !! file = Some content →
  forEach imports (λ importPath _,
    tryCatch
      (appendFileSync env file (importLine importPath))
      (Log_error ("Failed to write to plugins file at " +:+ importPath);;
       processExit 1)) tt w
  = (Returned tt,
     {| files := <[file := content +:+ concatLines (importLine <$> imports)]> (files w);
        logs := logs w; execs := execs w |}).
Proof.
  revert content w. induction imports as [|p imports IH]; intros content w Hc.
  - simpl. unfold mret, M_ret, ret. f_equal. apply world_eq; try done.
    rewrite append_nil_r. symmetry. by apply insert_id.
  - rewrite run_forEach_cons. unfold tryCatch at 1, appendFileSync at 1.
    rewrite Hwritable, Hc. simpl default.
    erewrite IH; [|by simpl; rewrite lookup_insert_eq].
    simpl. rewrite insert_insert_eq. do 3 f_equal.
    change (concatLines (importLine <$> p :: imports))
      with (importLine p +:+ concatLines (importLine <$> imports)).
    by rewrite append_assoc.
Qed.

Lemma generateImportsFile_writable (imports : list string) (w : World) :
  generateImportsFile env file imports w
  = (Returned tt,
     {| files := <[file := render imports]> (files w);
        logs := logs w; execs := execs w |}).
Proof.
  unfold generateImportsFile. rewrite run_bind.
  unfold tryCatch at 1. rewrite run_bind. unfold writeFileSync at 1.
  rewrite Hwritable. unfold writeFileSync at 1. rewrite Hwritable.
  cbn [files logs execs].
  erewrite appendLoop_writable; [|by simpl; rewrite lookup_insert_eq].
  simpl. by rewrite !insert_insert_eq.
Qed.
End Writable.

(** X5: when every install passes and every write is accepted, the run
    returns; the two generated files then hold the warning and the import
    statements of their manifests, the installs of the three tiers were
    started and announced in their order, and nothing else was logged. *)
Theorem run_returns_when_nothing_fails (env : Env) (w : World) :
  allInstallsPass env → alwaysWritable env →
  ∃ w', loadPlugins env w = (Returned tt, w') ∧
    files w' !! clientFile env = Some (manifestText (clientManifest env)) ∧
    files w' !! serverFile env = Some (manifestText (serverManifest env)) ∧
    logs w' = logs w ++ tiersLines env allTiers ∧
    execs w' = execs w ++ tiersCommands env allTiers.
Proof.
  intros Hpass Hwr. rewrite loadPlugins_phases.
  pose proof (discover_spec env w) as HS.
  pose proof (discover_trace env w) as HT.
  destruct (discover env w) as [[[[c i] u]| |k] w0]; [|done|].
  - destruct HS as (-> & -> & -> & Hf & _). destruct HT as (Hl & Hx).
    fold (clientManifest env). fold (serverManifest env).
    rewrite !generateImportsFile_writable by done.
    eexists. split; [reflexivity|]. simpl.
    rewrite <- !render_manifestText. split_and!; try done.
    + rewrite lookup_insert_ne by (symmetry; apply clientFile_ne_serverFile).
      by rewrite lookup_insert_eq.
    + by rewrite lookup_insert_eq.
  - exfalso. destruct HS as (_ & _ & (t & q & Hin & Hpkg & Hnok & _) & _).
    specialize (Hpass t). unfold installsPass in Hpass.
    rewrite Forall_forall in Hpass. specialize (Hpass q Hin Hpkg). congruence.
Qed.

Lemma run_returns_when_nothing_fails_witness :
  (allInstallsPass demoHost ∧ alwaysWritable demoHost) ∧
  ∃ w', loadPlugins demoHost staleWorld = (Returned tt, w') ∧
    files w' !! clientFile demoHost
      = Some (manifestText (clientManifest demoHost)) ∧
    files w' !! serverFile demoHost
      = Some (manifestText (serverManifest demoHost)) ∧
    logs w' = logs staleWorld ++ tiersLines demoHost allTiers ∧
    execs w' = execs staleWorld ++ tiersCommands demoHost allTiers.
Proof.
  assert (allInstallsPass demoHost) as Hpass
    by (intros t; apply Forall_forall; intros p _ _; reflexivity).
  assert (alwaysWritable demoHost) as Hwr by (intros m f d; reflexivity).
  split; [by split|].
  exact (run_returns_when_nothing_fails demoHost staleWorld Hpass Hwr).
Defined.



(** ** The import paths of a tier *)

Lemma bind_optional_singleton {A B} (has : A → bool) (f : A → B) (xs : list A) :
  xs ≫= (λ x, if has x then [f x] else []) = f <$> List.filter has xs.
Proof.
  induction xs as [|x xs IH]; [done|].
  rewrite bind_cons, IH. simpl. by destruct (has x).
Qed.

(** X7: the arrays [getImportPaths] returns hold one client path for
    every plugin directory that has a client entry, in the order of the
    directory listing and as often as the directory is listed, and
    likewise one server path and one registration path: nothing is
    sorted, merged or dropped. *)
Theorem getImportPaths_keeps_listing_order (env : Env) (base : string)
    (w w' : World) (r : ImportPaths) :
  getImportPaths env base w = (Returned r, w') →
  client r
  = (λ p, getImportPath env
            (JS.replace "/index.js" EmptyString
               ((base +:+ p) +:+ "/client/index.js")))
    <$> List.filter (λ p, fsExists env ((base +:+ p) +:+ "/client/index.js"))
          (pluginDirs env base) ∧
  server r
  = (λ p, getImportPath env
            (JS.replace "/index.js" EmptyString
               ((base +:+ p) +:+ "/server/index.js")))
    <$> List.filter (λ p, fsExists env ((base +:+ p) +:+ "/server/index.js"))
          (pluginDirs env base) ∧
  registry r
  = (λ p, getImportPath env ((base +:+ p) +:+ "/register.js"))
    <$> List.filter (λ p, fsExists env ((base +:+ p) +:+ "/register.js"))
          (pluginDirs env base).
Proof.
  unfold getImportPaths. intros Hrun.
  pose proof (pluginLoop_spec env base (pluginDirs env base)
                {| client := []; server := []; registry := [] |} w) as HS.
  rewrite Hrun in HS. destruct HS as (_ & -> & _).
  unfold appendPaths, dirsPaths, pluginPaths. simpl.
  by rewrite <- !bind_optional_singleton.
Qed.

Lemma getImportPaths_keeps_listing_order_witness :
  let env := demoHost in
  let r := getImportPaths env (corePlugins env) staleWorld in
  r = (Returned (tierImportPaths env Core), r.2) ∧
  client (tierImportPaths env Core) = ["/imports/plugins/core/A/client"] ∧
  client (tierImportPaths env Core)
  = (λ p, getImportPath env
            (JS.replace "/index.js" EmptyString
               ((corePlugins env +:+ p) +:+ "/client/index.js")))
    <$> List.filter
          (λ p, fsExists env ((corePlugins env +:+ p) +:+ "/client/index.js"))
          (pluginDirs env (corePlugins env)).
Proof.
  cbv zeta.
  assert (getImportPaths demoHost (corePlugins demoHost) staleWorld
          = (Returned (tierImportPaths demoHost Core),
             (getImportPaths demoHost (corePlugins demoHost) staleWorld).2))
    as Hrun by (vm_compute; reflexivity).
  split; [exact Hrun|]. split; [vm_compute; reflexivity|].
  exact (proj1 (getImportPaths_keeps_listing_order demoHost _ staleWorld _ _ Hrun)).
Defined.

(** ** Import paths below the application root *)

Lemma segments_nonempty (s : string) : Path.segments s ≠ [].
Proof.
  induction s as [|c s IH]; [done|]. simpl.
  case_decide; [done|]. by destruct (Path.segments s).
Qed.

Lemma segments_slash (a b : string) :
  Path.segments (a +:+ String "/" b) = Path.segments a ++ Path.segments b.
Proof.
  induction a as [|c a IH]; [done|].
  rewrite append_cons. simpl. rewrite IH.
  case_decide; [done|].
  pose proof (segments_nonempty a). by destruct (Path.segments a).
Qed.

Lemma segments_no_slash (s : string) :
  JS.includes "/" s = false → Path.segments s = [s].
Proof.
  induction s as [|c s IH]; [done|].
  rewrite includes_cons. intros [Hc Hs]%orb_false_iff.
  simpl. case_decide as Hd.
  - subst c. by vm_compute in Hc.
  - by rewrite IH.
Qed.

Lemma segments_join (segs : list string) :
  segs ≠ [] → Forall (λ seg, JS.includes "/" seg = false) segs →
  Path.segments (Path.join segs) = segs.
Proof.
  induction segs as [|seg segs IH]; [done|]. intros _ Hall.
  apply Forall_cons in Hall as [Hseg Hall].
  destruct segs as [|seg' segs].
  - by apply segments_no_slash.
  - change (Path.join (seg :: seg' :: segs))
      with (seg +:+ String "/" (Path.join (seg' :: segs))).
    rewrite segments_slash, segments_no_slash by done.
    by rewrite IH.
Qed.

Lemma normalize_app (stack xs ys : list string) :
  Path.normalize stack (xs ++ ys)
  = Path.normalize (rev (Path.normalize stack xs)) ys.
Proof.
  revert stack. induction xs as [|x xs IH]; intros stack; simpl.
  - by rewrite rev_involutive.
  - by repeat case_decide.
Qed.

Lemma normalize_plain (stack ys : list string) :
  Forall plainSegment ys → Path.normalize stack ys = rev stack ++ ys.
Proof.
  revert stack. induction ys as [|y ys IH]; intros stack Hall; simpl.
  - by rewrite app_nil_r.
  - apply Forall_cons in Hall as [(H1 & H2 & H3) Hall].
    rewrite !decide_False by done. rewrite IH by done.
    simpl. by rewrite <- app_assoc.
Qed.

Lemma dropCommon_prefix (xs ys : list string) :
  Path.dropCommon xs (xs ++ ys) = ([], ys).
Proof.
  induction xs as [|x xs IH]; simpl; [done|]. by rewrite decide_True.
Qed.

Lemma appRoot_absolute (env : Env) :
  ∃ r, appRoot env = String "/" r.
Proof.
  unfold appRoot, Path.resolve. rewrite append_cons, append_nil_l.
  eexists. reflexivity.
Qed.

Lemma replaceBackslashes_app (a b : string) :
  JS.replaceBackslashes (a +:+ b)
  = JS.replaceBackslashes a +:+ JS.replaceBackslashes b.
Proof.
  induction a as [|c a IH]; [done|].
  rewrite append_cons. simpl. by rewrite IH.
Qed.

Lemma append_ne_self (a b : string) : b ≠ EmptyString → a ≠ a +:+ b.
Proof.
  intros Hb Heq. apply Hb. apply (append_inj_head a).
  by rewrite append_nil_r.
Qed.

Lemma appRoot_startsWith_slash (env : Env) (rest : string) :
  JS.startsWith "/" (appRoot env +:+ rest) = true.
Proof.
  destruct (appRoot_absolute env) as [r ->]. by rewrite append_cons.
Qed.

(** The import path of a file below the application root is the slash
    and the path from the root to the file. *)
Lemma getImportPath_below_root (env : Env) (segs : list string) :
  segs ≠ [] →
  Forall (λ seg, JS.includes "/" seg = false) segs →
  Forall plainSegment segs →
  getImportPath env (appRoot env +:+ String "/" (Path.join segs))
  = JS.replaceBackslashes (String "/" (Path.join segs)).
Proof.
  intros Hne Hslash Hplain.
  unfold getImportPath, Path.relative.
  rewrite decide_False by (by apply append_ne_self).
  unfold Path.resolveSegs.
  assert (JS.startsWith "/" (appRoot env) = true) as ->
    by (rewrite <- (append_nil_r (appRoot env)); apply appRoot_startsWith_slash).
  rewrite appRoot_startsWith_slash.
  rewrite segments_slash, segments_join by done.
  rewrite normalize_app, (normalize_plain _ segs), rev_involutive by done.
  by rewrite dropCommon_prefix.
Qed.

Lemma plugin_name_plain (plugin : string) :
  plugin ≠ EmptyString → JS.charAt0IsDot plugin = false → plainSegment plugin.
Proof.
  intros Hne Hdot. split_and!; [done|..]; intros ->; by vm_compute in Hdot.
Qed.

(** The import path of the artifact [art] of a plugin of tier [t]. *)
Lemma tier_artifact_import_path (env : Env) (t : Tier) (plugin art : string) :
  plugin ≠ EmptyString → JS.charAt0IsDot plugin = false →
  JS.includes "/" plugin = false →
  JS.includes "/" art = false → plainSegment art →
  JS.replaceBackslashes art = art →
  getImportPath env ((tierPath env t +:+ plugin) +:+ String "/" art)
  = pluginImportPath t plugin (String "/" art).
Proof.
  intros Hne Hdot Hslash Hart Hplain Hclean.
  pose proof (plugin_name_plain plugin Hne Hdot) as Hpl.
  assert ((tierPath env t +:+ plugin) +:+ String "/" art
          = appRoot env +:+
            String "/" (Path.join ["imports"; "plugins"; tierName t; plugin; art]))
    as ->.
  { destruct t; unfold tierPath, corePlugins, includedPlugins, customPlugins,
      pluginsPath; by rewrite !append_assoc. }
  rewrite getImportPath_below_root.
  - unfold pluginImportPath.
    destruct t; cbn [tierName Path.join];
      rewrite <- !append_cons, !replaceBackslashes_app, Hclean; reflexivity.
  - done.
  - repeat (apply Forall_cons; split); try apply Forall_nil; try done.
    by destruct t.
  - repeat (apply Forall_cons; split); try apply Forall_nil; try done.
    by destruct t.
Qed.

(** X8: for a plugin directory of a tier whose name is not empty, does
    not start with a dot and holds no slash, and whose path is free of
    [/index.js], the import paths pushed by [getImportPaths] are
    [/imports/plugins/<tier>/<name>/client], [.../server] and
    [.../register.js], the backslashes of the name turned into slashes:
    they depend neither on the working directory nor on where the
    application lives. *)
Theorem plugin_import_paths_closed_form (env : Env) (t : Tier) (plugin : string) :
  plugin ≠ EmptyString → JS.charAt0IsDot plugin = false →
  JS.includes "/" plugin = false →
  JS.includes "/index.js" (tierPath env t +:+ plugin) = false →
  getImportPath env
    (JS.replace "/index.js" EmptyString
       ((tierPath env t +:+ plugin) +:+ "/client/index.js"))
  = pluginImportPath t plugin "/client" ∧
  getImportPath env
    (JS.replace "/index.js" EmptyString
       ((tierPath env t +:+ plugin) +:+ "/server/index.js"))
  = pluginImportPath t plugin "/server" ∧
  getImportPath env ((tierPath env t +:+ plugin) +:+ "/register.js")
  = pluginImportPath t plugin "/register.js".
Proof.
  intros Hne Hdot Hslash Hfree.
  change ((tierPath env t +:+ plugin) +:+ "/client/index.js")
    with ((tierPath env t +:+ plugin) +:+ String "/" (String "c" "lient") +:+ "/index.js").
  change ((tierPath env t +:+ plugin) +:+ "/server/index.js")
    with ((tierPath env t +:+ plugin) +:+ String "/" (String "s" "erver") +:+ "/index.js").
  rewrite !replace_entry_file by done.
  split_and!; apply tier_artifact_import_path; try done.
Qed.

Lemma plugin_import_paths_closed_form_witness :
  ("foo\bar" ≠ EmptyString ∧ JS.charAt0IsDot "foo\bar" = false ∧
   JS.includes "/" "foo\bar" = false ∧
   JS.includes "/index.js" (tierPath fooHost Custom +:+ "foo\bar") = false) ∧
  pluginImportPath Custom "foo\bar" "/client"
    = "/imports/plugins/custom/foo/bar/client" ∧
  getImportPath fooHost
    (JS.replace "/index.js" EmptyString
       ((tierPath fooHost Custom +:+ "foo\bar") +:+ "/client/index.js"))
  = pluginImportPath Custom "foo\bar" "/client".
Proof.
  assert ("foo\bar" ≠ EmptyString) as H1 by discriminate.
  assert (JS.charAt0IsDot "foo\bar" = false) as H2 by reflexivity.
  assert (JS.includes "/" "foo\bar" = false) as H3 by reflexivity.
  assert (JS.includes "/index.js" (tierPath fooHost Custom +:+ "foo\bar") = false)
    as H4 by (vm_compute; reflexivity).
  split; [by split_and!|]. split; [vm_compute; reflexivity|].
  exact (proj1 (plugin_import_paths_closed_form fooHost Custom "foo\bar"
                  H1 H2 H3 H4)).
Defined.

(** ** Disabling a plugin *)

Lemma pluginDirs_disable (env : Env) (d base : string) :
  pluginDirs (disable d env) base = pluginDirs (withoutDir d env) base.
Proof.
  unfold pluginDirs, JS.reject, JS.arrayIncludes. simpl.
  induction (getDirectories env base) as [|x xs IH]; [done|]. simpl.
  destruct (decide (x = d)) as [->|Hne].
  - rewrite (bool_decide_eq_true_2 (d = d)) by done. simpl.
    rewrite (bool_decide_eq_true_2 (d ∈ d :: disabledPlugins env))
      by apply list_elem_of_here.
    by rewrite orb_true_r.
  - rewrite (bool_decide_eq_false_2 (x = d)) by done. simpl.
    rewrite <- IH.
    assert (bool_decide (x ∈ d :: disabledPlugins env)
            = bool_decide (x ∈ disabledPlugins env)) as ->; [|done].
    apply bool_decide_ext. rewrite elem_of_cons.
    split; [intros [Heq|Hin]; [contradiction|exact Hin]|by right].
Qed.

(** X9: listing a plugin in [disabledPlugins] has the effect of deleting
    its directory from every tier: the run is the same, with the same
    outcome, files, log lines and commands; the other plugins keep their
    place. *)
Theorem disabling_is_deleting (env : Env) (d : string) (w : World) :
  loadPlugins (disable d env) w = loadPlugins (withoutDir d env) w.
Proof.
  assert (∀ base, getImportPaths (disable d env) base
                  = getImportPaths (withoutDir d env) base) as Hg.
  { intros base. unfold getImportPaths. by rewrite pluginDirs_disable. }
  unfold loadPlugins.
  change (corePlugins (disable d env)) with (corePlugins (withoutDir d env)).
  change (includedPlugins (disable d env)) with (includedPlugins (withoutDir d env)).
  change (customPlugins (disable d env)) with (customPlugins (withoutDir d env)).
  by rewrite !Hg.
Qed.

(** * Properties of [createTitle] and [createHandle] *)

Lemma count_filter_zero {A} (f : A → bool) (xs : list A) :
  N.of_nat (length (List.filter f xs)) = 0%N ↔ ∀ x, x ∈ xs → f x = false.
Proof.
  induction xs as [|x xs IH]; simpl.
  - split; [|done]. intros _ x Hx. by apply elem_of_nil in Hx.
  - destruct (f x) eqn:Hfx; simpl.
    + split; [lia|]. intros H. specialize (H x (list_elem_of_here _ _)). congruence.
    + rewrite IH. split.
      * intros H y [->|Hy]%elem_of_cons; auto.
      * intros H y Hy. apply H. by right.
Qed.

Lemma countTitle_zero (db : list Product) (t : string) :
  countTitle db t = 0%N ↔ ∀ p, p ∈ db → prodTitle p ≠ Some t.
Proof.
  unfold countTitle. rewrite count_filter_zero.
  apply forall_proper; intros p. rewrite bool_decide_eq_false. done.
Qed.

Lemma countHandleOfOthers_zero (db : list Product) (h id : string) :
  countHandleOfOthers db h id = 0%N ↔
  ∀ p, p ∈ db → prodHandle p = Some h → prodId p = id.
Proof.
  unfold countHandleOfOthers. rewrite count_filter_zero.
  apply forall_proper; intros p. apply forall_proper; intros _.
  rewrite andb_false_iff, negb_false_iff, bool_decide_eq_false,
    bool_decide_eq_true.
  split.
  - intros [H|H] Hh; [contradiction|done].
  - intros H. destruct (decide (prodHandle p = Some h)); auto.
Qed.

(** With no other product of that name, the name stays. *)
Lemma copyName_unused (name : string) : copyName name 0 = Some name.
Proof. unfold copyName. by rewrite decide_False by lia. Qed.

(** X10: a title [createTitle] returns is the title of no product of the
    collection. *)
Theorem createTitle_returns_unused_title (fuel : nat) (db : list Product)
    (newTitle : option string) (productId title : string) :
  createTitle fuel db newTitle productId = Named title →
  ∀ p, p ∈ db → prodTitle p ≠ Some title.
Proof.
  revert newTitle. induction fuel as [|fuel IH]; intros newTitle; [done|].
  simpl. destruct (copyName _ _) as [t'|]; [|done].
  case_decide as Hc.
  - apply IH.
  - intros [= <-]. apply countTitle_zero.
    destruct (decide (countTitle db t' = 0%N)); [done|contradiction].
Qed.

Lemma createTitle_returns_unused_title_witness :
  createTitle 4 shirts (Some "Shirt") "new" = Named "Shirt-copy-3" ∧
  ∀ p, p ∈ shirts → prodTitle p ≠ Some "Shirt-copy-3".
Proof.
  assert (createTitle 4 shirts (Some "Shirt") "new" = Named "Shirt-copy-3")
    as Hrun by (vm_compute; reflexivity).
  split; [exact Hrun|].
  exact (createTitle_returns_unused_title 4 shirts _ "new" _ Hrun).
Defined.

(** X11: a handle [createHandle] returns is the handle of no product
    other than the one it is made for. *)
Theorem createHandle_returns_handle_of_no_other (fuel : nat) (db : list Product)
    (productHandle : option string) (productId handle : string) :
  createHandle fuel db productHandle productId = Named handle →
  ∀ p, p ∈ db → prodHandle p = Some handle → prodId p = productId.
Proof.
  revert productHandle. induction fuel as [|fuel IH]; intros productHandle; [done|].
  simpl. destruct (copyName _ _) as [h'|]; [|done].
  case_decide as Hc.
  - apply IH.
  - intros [= <-]. apply countHandleOfOthers_zero.
    destruct (decide (countHandleOfOthers db h' productId = 0%N));
      [done|contradiction].
Qed.

Lemma createHandle_returns_handle_of_no_other_witness :
  createHandle 4 shirts (Some "shirt") "new" = Named "shirt-copy-3" ∧
  ∀ p, p ∈ shirts → prodHandle p = Some "shirt-copy-3" → prodId p = "new".
Proof.
  assert (createHandle 4 shirts (Some "shirt") "new" = Named "shirt-copy-3")
    as Hrun by (vm_compute; reflexivity).
  split; [exact Hrun|].
  exact (createHandle_returns_handle_of_no_other 4 shirts _ "new" _ Hrun).
Defined.

(** X12: [createHandle] leaves a handle alone that no other product has,
    also when the product itself has it, and so does not change the
    handle it returned when it is called again. *)
Theorem createHandle_keeps_own_handle (fuel : nat) (db : list Product)
    (handle productId : string) :
  (∀ p, p ∈ db → prodHandle p = Some handle → prodId p = productId) →
  createHandle (S fuel) db (Some handle) productId = Named handle.
Proof.
  intros Hown. apply countHandleOfOthers_zero in Hown.
  simpl. rewrite Hown, copyName_unused, Hown.
  destruct (decide _) as [Hne|_]; [by destruct Hne|done].
Qed.

Lemma createHandle_keeps_own_handle_witness :
  (∀ p, p ∈ shirts → prodHandle p = Some "shirt-copy" → prodId p = "p2") ∧
  createHandle 1 shirts (Some "shirt-copy") "p2" = Named "shirt-copy".
Proof.
  assert (∀ p, p ∈ shirts → prodHandle p = Some "shirt-copy" → prodId p = "p2")
    as Hown by (apply countHandleOfOthers_zero; vm_compute; reflexivity).
  split; [exact Hown|].
  exact (createHandle_keeps_own_handle 0 shirts _ _ Hown).
Defined.

(** X13: [createTitle] does not return when the product it is called for
    has the title itself and no other product has it: the title stays as
    it is, the second count finds the product, and the function calls
    itself with the same arguments, however much fuel there is. *)
Theorem createTitle_recurses_on_own_title (fuel : nat) (db : list Product)
    (title productId : string) :
  (∀ p, p ∈ db → prodTitle p = Some title → prodId p = productId) →
  (∃ p, p ∈ db ∧ prodTitle p = Some title) →
  createTitle fuel db (Some title) productId = StillRecursing.
Proof.
  intros Hown (p & Hp & Ht).
  assert (countTitleOfOthers db title productId = 0%N) as H0.
  { unfold countTitleOfOthers. apply count_filter_zero. intros q Hq.
    destruct (bool_decide (prodTitle q = Some title)) eqn:Hqt; [|done].
    apply bool_decide_eq_true in Hqt. rewrite (Hown q Hq Hqt). simpl.
    by rewrite bool_decide_eq_true_2. }
  assert (countTitle db title ≠ 0%N) as Hne.
  { intros Hz. by apply (proj1 (countTitle_zero db title) Hz p Hp). }
  induction fuel as [|fuel IH]; [done|].
  simpl. rewrite H0, copyName_unused. by rewrite decide_True.
Qed.

Lemma createTitle_recurses_on_own_title_witness :
  ((∀ p, p ∈ shirts → prodTitle p = Some "Shirt" → prodId p = "p1") ∧
   (∃ p, p ∈ shirts ∧ prodTitle p = Some "Shirt")) ∧
  createTitle 1000 shirts (Some "Shirt") "p1" = StillRecursing.
Proof.
  assert (∀ p, p ∈ shirts → prodTitle p = Some "Shirt" → prodId p = "p1") as Hown.
  { intros p Hp Ht. unfold shirts in Hp.
    repeat (apply elem_of_cons in Hp as [->|Hp]; [by (reflexivity || discriminate Ht)|]).
    by apply elem_of_nil in Hp. }
  assert (∃ p, p ∈ shirts ∧ prodTitle p = Some "Shirt") as Hex.
  { eexists. split; [apply list_elem_of_here|reflexivity]. }
  split; [by split|].
  exact (createTitle_recurses_on_own_title 1000 shirts _ _ Hown Hex).
Defined.

(** ** Patterns at the end of a name *)

Lemma matchEnd_Some (accepts : string → bool) (s m : string) :
  Regex.matchEnd accepts s = Some m → accepts m = true ∧ ∃ a, s = a +:+ m.
Proof.
  induction s as [|c s IH].
  - simpl. destruct (accepts EmptyString) eqn:Ha; [|done].
    intros [= <-]. split; [done|]. by exists EmptyString.
  - cbn [Regex.matchEnd]. destruct (accepts (String c s)) eqn:Ha.
    + intros [= <-]. split; [done|]. by exists EmptyString.
    + intros [Hm [a ->]]%IH. split; [done|]. by exists (String c a).
Qed.

(** The match is the leftmost accepted end. *)
Lemma matchEnd_leftmost (accepts : string → bool) (a m : string) :
  accepts m = true →
  (∀ x y, a = x +:+ y → y ≠ EmptyString → accepts (y +:+ m) = false) →
  Regex.matchEnd accepts (a +:+ m) = Some m.
Proof.
  intros Hm. induction a as [|c a IH]; intros Ha.
  - rewrite append_nil_l. destruct m; simpl; by rewrite Hm.
  - rewrite append_cons. cbn [Regex.matchEnd]. rewrite <- append_cons.
    rewrite (Ha EmptyString (String c a)) by done.
    apply IH. intros x y -> Hy. by apply (Ha (String c x) y).
Qed.

Lemma matchEnd_None (accepts : string → bool) (s : string) :
  (∀ a m, s = a +:+ m → accepts m = false) →
  Regex.matchEnd accepts s = None.
Proof.
  intros Hs. destruct (Regex.matchEnd accepts s) as [m|] eqn:Hm; [|done].
  apply matchEnd_Some in Hm as [Hm [a ->]]. by rewrite (Hs a m) in Hm.
Qed.

Lemma removeEnd_leftmost (accepts : string → bool) (a m : string) :
  accepts m = true →
  (∀ x y, a = x +:+ y → y ≠ EmptyString → accepts (y +:+ m) = false) →
  Regex.removeEnd accepts (a +:+ m) = a.
Proof.
  intros Hm. induction a as [|c a IH]; intros Ha.
  - rewrite append_nil_l. destruct m; simpl; by rewrite Hm.
  - rewrite append_cons. cbn [Regex.removeEnd]. rewrite <- append_cons.
    rewrite (Ha EmptyString (String c a)) by done.
    f_equal.
    apply IH. intros x y -> Hy. by apply (Ha (String c x) y).
Qed.

Lemma removeEnd_None (accepts : string → bool) (s : string) :
  (∀ a m, s = a +:+ m → accepts m = false) →
  Regex.removeEnd accepts s = s.
Proof.
  induction s as [|c s IH]; intros Hs.
  - simpl. by rewrite (Hs EmptyString EmptyString).
  - cbn [Regex.removeEnd]. rewrite (Hs EmptyString (String c s)) by done.
    f_equal. apply IH. intros a m ->. by apply (Hs (String c a) m).
Qed.

(** A text in which a character that is no digit stands is not accepted
    by [\d+]. *)
Lemma digits_with_other (a b : string) (c : ascii) :
  Regex.isDigit c = false → Regex.digits (a +:+ String c b) = false.
Proof.
  intros Hc. unfold Regex.digits. apply andb_false_iff. right.
  induction a as [|x a IH].
  - rewrite append_nil_l. simpl. by rewrite Hc.
  - rewrite append_cons. simpl. by rewrite IH, andb_false_r.
Qed.

Lemma startsWith_split (p s : string) :
  JS.startsWith p s = true → s = p +:+ JS.slice (String.length p) s.
Proof.
  revert s. induction p as [|c p IH]; intros s; [done|].
  destruct s as [|d s]; [done|]. simpl. case_decide; [|done].
  subst d. intros Hs. rewrite append_cons. f_equal. by apply IH.
Qed.

Lemma copyNumber_inv (m : string) :
  Regex.copyNumber m = true →
  ∃ ds, m = "-copy-" +:+ ds ∧ Regex.digits ds = true.
Proof.
  unfold Regex.copyNumber. intros [Hs Hd]%andb_true_iff.
  exists (JS.slice 6 m). split; [|done]. by apply (startsWith_split "-copy-").
Qed.

Lemma startsWith_append (p s : string) : JS.startsWith p (p +:+ s) = true.
Proof.
  induction p as [|c p IH]; [done|].
  rewrite append_cons. simpl. by rewrite decide_True.
Qed.

Lemma slice_append (p s : string) : JS.slice (String.length p) (p +:+ s) = s.
Proof. induction p as [|c p IH]; [by destruct s|done]. Qed.

Lemma copyNumber_intro (ds : string) :
  Regex.digits ds = true → Regex.copyNumber ("-copy-" +:+ ds) = true.
Proof.
  intros Hd. unfold Regex.copyNumber. apply andb_true_iff. split.
  - apply startsWith_append.
  - change (JS.slice 6) with (JS.slice (String.length "-copy-")).
    by rewrite slice_append.
Qed.

Lemma length_append (a b : string) :
  String.length (a +:+ b) = String.length a + String.length b.
Proof. induction a as [|c a IH]; [done|]. rewrite append_cons. simpl. by rewrite IH. Qed.

Lemma slice_append_l (n : nat) (a b : string) :
  n ≤ String.length a → JS.slice n (a +:+ b) = JS.slice n a +:+ b.
Proof.
  revert a. induction n as [|n IH]; intros a Hn; [done|].
  destruct a as [|c a]; [simpl in Hn; lia|].
  rewrite append_cons. simpl. apply IH. simpl in Hn. lia.
Qed.

Lemma copyNumber_not_earlier (y ds : string) :
  y ≠ EmptyString → Regex.digits ds = true →
  Regex.copyNumber (y +:+ "-copy-" +:+ ds) = false.
Proof.
  intros Hy Hd.
  destruct (Regex.copyNumber (y +:+ "-copy-" +:+ ds)) eqn:Hc; [|done].
  exfalso. unfold Regex.copyNumber in Hc.
  apply andb_true_iff in Hc as [_ Hc].
  change (y +:+ "-copy-" +:+ ds) with (y +:+ "-copy" +:+ String "-" ds) in Hc.
  rewrite <- append_assoc, slice_append_l in Hc.
  - by rewrite digits_with_other in Hc.
  - rewrite length_append. destruct y; [done|]. simpl. lia.
Qed.

Lemma matchEnd_copyNumber (b ds : string) :
  Regex.digits ds = true →
  Regex.matchEnd Regex.copyNumber (b +:+ "-copy-" +:+ ds)
  = Some ("-copy-" +:+ ds).
Proof.
  intros Hd. apply matchEnd_leftmost; [by apply copyNumber_intro|].
  intros x y _ Hy. by apply copyNumber_not_earlier.
Qed.

(** A non-empty end of a text ends with the last character of the text. *)
Lemma suffix_snoc (x y u : string) (c : ascii) :
  x +:+ y = u +:+ String c EmptyString → y ≠ EmptyString →
  ∃ y', y = y' +:+ String c EmptyString.
Proof.
  revert u. induction x as [|d x IH]; intros u Heq Hy.
  - rewrite append_nil_l in Heq. by exists u.
  - destruct u as [|d' u].
    + rewrite append_cons, append_nil_l in Heq. injection Heq as _ Heq.
      destruct x; [|done]. by rewrite append_nil_l in Heq.
    + rewrite !append_cons in Heq. injection Heq as _ Heq. by eapply IH.
Qed.

Lemma digits_snoc_other (y : string) (c : ascii) (ds : string) :
  Regex.isDigit c = false →
  Regex.digits ((y +:+ String c EmptyString) +:+ ds) = false.
Proof.
  intros Hc. rewrite append_assoc. by apply digits_with_other.
Qed.

(** After a character that is no digit, [\d+$] matches the digits that
    follow and nothing more. *)
Lemma matchEnd_digits_after (u : string) (c : ascii) (ds : string) :
  Regex.isDigit c = false → Regex.digits ds = true →
  Regex.matchEnd Regex.digits ((u +:+ String c EmptyString) +:+ ds) = Some ds.
Proof.
  intros Hc Hd. apply matchEnd_leftmost; [done|].
  intros x y Heq Hy. symmetry in Heq.
  destruct (suffix_snoc x y u c Heq Hy) as [y' ->].
  by apply digits_snoc_other.
Qed.

Lemma removeEnd_digits_after (u : string) (c : ascii) (ds : string) :
  Regex.isDigit c = false → Regex.digits ds = true →
  Regex.removeEnd Regex.digits ((u +:+ String c EmptyString) +:+ ds)
  = u +:+ String c EmptyString.
Proof.
  intros Hc Hd. apply removeEnd_leftmost; [done|].
  intros x y Heq Hy. symmetry in Heq.
  destruct (suffix_snoc x y u c Heq Hy) as [y' ->].
  by apply digits_snoc_other.
Qed.

(** A text that ends with a character that is no digit has no digits at
    its end. *)
Lemma digits_not_at_end (u : string) (c : ascii) (a m : string) :
  Regex.isDigit c = false →
  u +:+ String c EmptyString = a +:+ m → Regex.digits m = false.
Proof.
  intros Hc Heq. destruct (decide (m = EmptyString)) as [->|Hm]; [done|].
  symmetry in Heq. destruct (suffix_snoc a m u c Heq Hm) as [y' ->].
  rewrite <- (append_nil_r (y' +:+ String c EmptyString)).
  by apply digits_snoc_other.
Qed.

Lemma dash_not_at_end (u : string) (c : ascii) (a m : string) :
  c ≠ "-"%char →
  u +:+ String c EmptyString = a +:+ m → Regex.dash m = false.
Proof.
  intros Hc Heq. unfold Regex.dash. apply bool_decide_eq_false. intros ->.
  symmetry in Heq. destruct (suffix_snoc a "-" u c Heq) as [y' Hy]; [done|].
  destruct y' as [|? y']; rewrite ?append_cons, ?append_nil_l in Hy.
  - congruence.
  - injection Hy as _ Hy. by destruct y'.
Qed.

Lemma removeEnd_dash (u : string) :
  Regex.removeEnd Regex.dash (u +:+ "-") = u.
Proof.
  apply removeEnd_leftmost; [done|].
  intros x y _ Hy. unfold Regex.dash. apply bool_decide_eq_false.
  intros Heq. apply (f_equal String.length) in Heq.
  rewrite length_append in Heq. destruct y; [done|]. simpl in Heq. lia.
Qed.

(** ** The new name *)

Lemma copyNumberOf_pos (ds : string) : (0 < copyNumberOf ds)%N.
Proof. unfold copyNumberOf. case_decide; lia. Qed.

(** The new name of a name that ends in [-copy-] and digits. *)
Lemma copyName_numbered (b ds : string) (k : N) :
  Regex.digits ds = true → (0 < k)%N →
  copyName (b +:+ "-copy-" +:+ ds) k
  = (number ← printNumber (copyNumberOf ds + k)%N;
     Some (b +:+ "-copy-" +:+ number)).
Proof.
  intros Hd Hk.
  assert (Regex.matchEnd Regex.digits ("-copy-" +:+ ds) = Some ds) as Hm
    by exact (matchEnd_digits_after "-copy" "-" ds eq_refl Hd).
  assert (Regex.removeEnd Regex.digits (b +:+ "-copy-" +:+ ds)
          = (b +:+ "-copy") +:+ "-") as Hr.
  { rewrite <- (removeEnd_digits_after (b +:+ "-copy") "-" ds eq_refl Hd).
    by rewrite !append_assoc. }
  unfold copyName.
  rewrite matchEnd_copyNumber, Hm, Hr, removeEnd_dash by done.
  fold (copyNumberOf ds).
  rewrite decide_True by done.
  rewrite decide_True by apply copyNumberOf_pos.
  destruct (printNumber _) as [number|]; [|done]. simpl.
  by rewrite !append_assoc.
Qed.

(** The new name of a name that ends in [-copy]. *)
Lemma copyName_copy (b : string) (k : N) :
  (0 < k)%N →
  copyName (b +:+ "-copy") k
  = (number ← printNumber (1 + k)%N; Some (b +:+ "-copy-" +:+ number)).
Proof.
  intros Hk. unfold copyName.
  assert (∀ a m, b +:+ "-copy" = a +:+ m → Regex.digits m = false) as Hnd.
  { intros a m Heq. apply (digits_not_at_end (b +:+ "-cop") "y" a m); [done|].
    by rewrite append_assoc. }
  assert (∀ a m, b +:+ "-copy" = a +:+ m → Regex.dash m = false) as Hnh.
  { intros a m Heq. apply (dash_not_at_end (b +:+ "-cop") "y" a m); [done|].
    by rewrite append_assoc. }
  rewrite (matchEnd_None Regex.copyNumber).
  2:{ intros a m Heq. destruct (Regex.copyNumber m) eqn:Hm; [|done].
      apply copyNumber_inv in Hm as (ds & -> & Hd).
      rewrite <- append_assoc in Heq. by rewrite (Hnd _ _ Heq) in Hd. }
  rewrite (matchEnd_leftmost Regex.copy b "-copy").
  2:{ done. }
  2:{ intros x y _ Hy. apply bool_decide_eq_false. intros Heq.
      apply (f_equal String.length) in Heq. rewrite length_append in Heq.
      destruct y; [done|]. simpl in Heq. lia. }
  change (Regex.matchEnd Regex.digits "-copy") with (@None string).
  rewrite (removeEnd_None Regex.digits) by done.
  rewrite (removeEnd_None Regex.dash) by done.
  rewrite decide_True by done. simpl.
  destruct (printNumber _) as [number|]; [|done]. simpl.
  by rewrite !append_assoc.
Qed.

(** The new name of a name without a copy suffix. *)
Lemma copyName_no_suffix (name : string) (k : N) :
  Regex.matchEnd Regex.copyNumber name = None →
  Regex.matchEnd Regex.copy name = None →
  (0 < k)%N →
  copyName name k
  = if decide (1 < k)%N
    then number ← printNumber k; Some (name +:+ "-copy-" +:+ number)
    else Some (name +:+ "-copy").
Proof.
  intros H1 H2 Hk. unfold copyName. rewrite H1, H2.
  rewrite decide_True by done. rewrite decide_False by lia.
  case_decide.
  - by destruct (printNumber k).
  - done.
Qed.

Lemma plainName_no_suffix (name : string) :
  plainName name →
  Regex.matchEnd Regex.copyNumber name = None ∧
  Regex.matchEnd Regex.copy name = None.
Proof.
  intros [Hc Hn]. split; apply matchEnd_None; intros a m ->.
  - destruct (Regex.copyNumber m) eqn:Hm; [|done].
    apply copyNumber_inv in Hm as (ds & -> & Hd). by destruct (Hn a ds).
  - apply bool_decide_eq_false. intros ->. by destruct (Hc a).
Qed.

(** X14: the names of copies. For [count] other products of the same
    name, one at least: a name without copy suffix gets [-copy], or
    [-copy-<count>] when the count is above one; a name that ends in
    [-copy] gets [-<1 + count>]; a name that ends in [-copy-<digits>]
    gets the number of the digits, zero counting as one, raised by the
    count. Numbers beyond the safe integers are not printed. *)
Theorem copy_naming_scheme (name b ds : string) (count : N) :
  (0 < count)%N →
  (plainName name →
   copyName name count
   = if decide (1 < count)%N
     then number ← printNumber count; Some (name +:+ "-copy-" +:+ number)
     else Some (name +:+ "-copy")) ∧
  copyName (b +:+ "-copy") count
  = (number ← printNumber (1 + count)%N; Some (b +:+ "-copy-" +:+ number)) ∧
  (Regex.digits ds = true →
   copyName (b +:+ "-copy-" +:+ ds) count
   = (number ← printNumber (copyNumberOf ds + count)%N;
      Some (b +:+ "-copy-" +:+ number))).
Proof.
  intros Hk. split_and!.
  - intros [H1 H2]%plainName_no_suffix. by apply copyName_no_suffix.
  - by apply copyName_copy.
  - intros Hd. by apply copyName_numbered.
Qed.

(** ** Numbers and their digits *)

Lemma pretty_char_digit (m : N) :
  (m < 10)%N →
  Regex.isDigit (pretty_N_char m) = true ∧
  N.of_nat (nat_of_ascii (pretty_N_char m) - 48) = m.
Proof.
  intros Hm.
  assert (m = 0 ∨ m = 1 ∨ m = 2 ∨ m = 3 ∨ m = 4 ∨ m = 5 ∨ m = 6 ∨ m = 7
          ∨ m = 8 ∨ m = 9)%N as Hcases by lia.
  repeat (destruct Hcases as [->|Hcases]; [by split|]). subst. by split.
Qed.

Lemma numberFrom_app (acc : N) (a b : string) :
  numberFrom acc (a +:+ b) = numberFrom (numberFrom acc a) b.
Proof.
  revert acc. induction a as [|c a IH]; intros acc; [done|].
  rewrite append_cons. simpl. by rewrite IH.
Qed.

Lemma allDigits_app (a b : string) :
  Regex.allDigits (a +:+ b) = Regex.allDigits a && Regex.allDigits b.
Proof.
  induction a as [|c a IH]; [done|].
  rewrite append_cons. simpl. by rewrite IH, andb_assoc.
Qed.

(** What the printer puts before [s] are the digits of [x]. *)
Lemma pretty_N_go_digits (x : N) (s : string) :
  ∃ d, pretty_N_go x s = d +:+ s ∧ Regex.allDigits d = true ∧
       (∀ acc, numberFrom acc d
               = (acc * 10 ^ N.of_nat (String.length d) + x)%N) ∧
       ((0 < x)%N → d ≠ EmptyString).
Proof.
  revert s. induction (N.lt_wf_0 x) as [x _ IH]; intros s.
  destruct (decide (x = 0%N)) as [->|Hx].
  - exists EmptyString. rewrite pretty_N_go_0. split_and!; try done.
    all: intros; simpl; lia.
  - rewrite pretty_N_go_step by lia.
    destruct (IH (x `div` 10)%N) with (s := String (pretty_N_char (x `mod` 10)) s)
      as (d & Hd & Hall & Hnum & _).
    { apply N.div_lt; lia. }
    destruct (pretty_char_digit (x `mod` 10)%N) as [Hdig Hval].
    { apply N.mod_lt. lia. }
    exists (d +:+ String (pretty_N_char (x `mod` 10)) EmptyString).
    split_and!.
    + by rewrite Hd, append_assoc.
    + rewrite allDigits_app, Hall. simpl. by rewrite Hdig.
    + intros acc. rewrite numberFrom_app, Hnum. simpl. rewrite Hval.
      rewrite length_append. simpl.
      rewrite Nat2N.inj_add. simpl N.of_nat.
      rewrite N.pow_add_r. change (10 ^ 1)%N with 10%N.
      pose proof (N.div_mod x 10). lia.
    + intros _. by destruct d.
Qed.

Lemma pretty_digits (n : N) : Regex.digits (pretty n) = true.
Proof.
  unfold pretty, pretty_N. case_decide; [done|].
  destruct (pretty_N_go_digits n EmptyString) as (d & -> & Hall & _ & Hne).
  rewrite append_nil_r. unfold Regex.digits. rewrite Hall, andb_true_r.
  apply negb_true_iff, bool_decide_eq_false. apply Hne. lia.
Qed.

Lemma numberOf_pretty (n : N) : numberOf (pretty n) = n.
Proof.
  unfold pretty, pretty_N. case_decide; [by subst|].
  destruct (pretty_N_go_digits n EmptyString) as (d & -> & _ & Hnum & _).
  rewrite append_nil_r. unfold numberOf. rewrite Hnum. lia.
Qed.

Lemma copyNumberOf_pretty (n : N) : (0 < n)%N → copyNumberOf (pretty n) = n.
Proof.
  intros Hn. unfold copyNumberOf. rewrite numberOf_pretty.
  by rewrite decide_False by lia.
Qed.

(** ** The recursion *)

Lemma createTitle_createName (fuel : nat) (db : list Product)
    (newTitle : option string) (productId : string) :
  createTitle fuel db newTitle productId
  = createName fuel (λ x, countTitleOfOthers db x productId) (countTitle db)
      (default EmptyString newTitle).
Proof.
  revert newTitle. induction fuel as [|fuel IH]; intros newTitle; [done|].
  simpl. destruct (copyName _ _) as [t'|]; [|done].
  case_decide; [|done]. by rewrite IH.
Qed.

Lemma createHandle_createName (fuel : nat) (db : list Product)
    (productHandle : option string) (productId : string) :
  createHandle fuel db productHandle productId
  = createName fuel (λ x, countHandleOfOthers db x productId)
      (λ x, countHandleOfOthers db x productId)
      (default EmptyString productHandle).
Proof.
  revert productHandle. induction fuel as [|fuel IH]; intros productHandle; [done|].
  simpl. destruct (copyName _ _) as [h'|]; [|done].
  case_decide; [|done]. by rewrite IH.
Qed.

Lemma filter_length_le {A} (f : A → bool) (l : list A) :
  length (List.filter f l) ≤ length l.
Proof.
  induction l as [|x l IH]; simpl; [done|]. destruct (f x); simpl; lia.
Qed.

Lemma filter_length_lt {A} (f g : A → bool) (l : list A) (p : A) :
  (∀ x, f x = true → g x = true) →
  p ∈ l → g p = true → f p = false →
  length (List.filter f l) < length (List.filter g l).
Proof.
  intros Hfg Hp Hgp Hfp.
  assert (∀ l', length (List.filter f l') ≤ length (List.filter g l')) as Hle.
  { induction l' as [|x l' IH]; simpl; [done|].
    destruct (f x) eqn:Hfx.
    - rewrite (Hfg x Hfx). simpl. lia.
    - destruct (g x); simpl; lia. }
  induction l as [|x l IH]; [by apply elem_of_nil in Hp|].
  apply elem_of_cons in Hp as [<-|Hp]; simpl.
  - rewrite Hfp, Hgp. simpl. specialize (Hle l). lia.
  - specialize (IH Hp). destruct (f x) eqn:Hfx.
    + rewrite (Hfg x Hfx). simpl. lia.
    + destruct (g x); simpl; lia.
Qed.

Lemma laterCopy_numbered (b : string) (n : N) (ds : string) :
  Regex.digits ds = true →
  laterCopy b n (b +:+ "-copy-" +:+ ds) = (n <? copyNumberOf ds)%N.
Proof.
  intros Hd. unfold laterCopy. rewrite matchEnd_copyNumber by done.
  rewrite bool_decide_eq_true_2 by done.
  change (JS.slice 6) with (JS.slice (String.length "-copy-")).
  by rewrite slice_append.
Qed.

Lemma laterCopy_mono (b : string) (n n' : N) (x : string) :
  (n ≤ n')%N → laterCopy b n' x = true → laterCopy b n x = true.
Proof.
  intros Hn. unfold laterCopy. destruct (Regex.matchEnd _ _); [|done].
  intros [H1 H2]%andb_true_iff. apply andb_true_iff. split; [done|].
  apply N.ltb_lt in H2. apply N.ltb_lt. lia.
Qed.

Lemma copyNumberIn_numbered (b ds : string) :
  Regex.digits ds = true →
  copyNumberIn (b +:+ "-copy-" +:+ ds) = copyNumberOf ds.
Proof.
  intros Hd. unfold copyNumberIn. rewrite matchEnd_copyNumber by done.
  change (JS.slice 6) with (JS.slice (String.length "-copy-")).
  by rewrite slice_append.
Qed.

Section Recursion.
Context (taken : list string) (countOthers countAgain : string → N).
Context (Htaken : ∀ x, countAgain x ≠ 0%N → countOthers x ≠ 0%N ∧ x ∈ taken).
Context (bound most : N).
Context (Hone : (1 ≤ bound)%N) (Hsafe : (bound + most ≤ maxSafeInteger)%N).
Context (Hmost : ∀ x, (countOthers x ≤ most)%N).
Context (Hbound : ∀ x, x ∈ taken → (copyNumberIn x ≤ bound)%N).

(** A name no other product has comes back at once. *)
Lemma createName_unused (fuel : nat) (name : string) :
  countOthers name = 0%N →
  createName (S fuel) countOthers countAgain name = Named name.
Proof.
  intros Hk. simpl. rewrite Hk, copyName_unused.
  case_decide as Hc; [|done]. by destruct (Htaken name Hc).
Qed.

(** From a numbered copy on, every further call is for a taken name with
    a higher number, and no number goes beyond [bound + most]. *)
Lemma createName_numbered (fuel : nat) (b ds : string) :
  Regex.digits ds = true →
  (copyNumberOf ds ≤ bound)%N →
  length (List.filter (laterCopy b (copyNumberOf ds)) taken) < fuel →
  ∃ r, createName fuel countOthers countAgain (b +:+ "-copy-" +:+ ds) = Named r.
Proof.
  revert ds. induction fuel as [|fuel IH]; intros ds Hd Hn Hfuel; [lia|].
  destruct (decide (countOthers (b +:+ "-copy-" +:+ ds) = 0%N)) as [Hk|Hk].
  { eexists. by apply createName_unused. }
  simpl. rewrite copyName_numbered by (done || lia).
  pose proof (Hmost (b +:+ "-copy-" +:+ ds)) as Hle.
  pose proof (copyNumberOf_pos ds) as Hpos.
  unfold printNumber. rewrite decide_True by lia. simpl.
  case_decide as Hc; [|by eexists].
  destruct (Htaken _ Hc) as [_ Hin].
  assert (copyNumberOf
            (pretty (copyNumberOf ds + countOthers (b +:+ "-copy-" +:+ ds))%N)
          = (copyNumberOf ds + countOthers (b +:+ "-copy-" +:+ ds))%N) as Hnum
    by (apply copyNumberOf_pretty; lia).
  apply IH; [apply pretty_digits| |].
  - specialize (Hbound _ Hin).
    by rewrite copyNumberIn_numbered in Hbound by apply pretty_digits.
  - rewrite Hnum.
    eapply Nat.lt_le_trans; [|apply Nat.lt_succ_r, Hfuel].
    eapply (filter_length_lt _ _ _ _ _ Hin).
    Unshelve.
    + rewrite laterCopy_numbered by apply pretty_digits.
      rewrite Hnum. apply N.ltb_lt. lia.
    + rewrite laterCopy_numbered by apply pretty_digits.
      rewrite Hnum. apply N.ltb_ge. lia.
    + intros x. apply laterCopy_mono. lia.
Qed.

Lemma createName_copy (fuel : nat) (b : string) :
  length taken + 1 < fuel →
  ∃ r, createName fuel countOthers countAgain (b +:+ "-copy") = Named r.
Proof.
  intros Hfuel. destruct fuel as [|fuel]; [lia|].
  destruct (decide (countOthers (b +:+ "-copy") = 0%N)) as [Hk|Hk].
  { eexists. by apply createName_unused. }
  simpl. rewrite copyName_copy by lia.
  pose proof (Hmost (b +:+ "-copy")) as Hle.
  unfold printNumber. rewrite decide_True by lia. simpl.
  case_decide as Hc; [|by eexists].
  destruct (Htaken _ Hc) as [_ Hin].
  apply createName_numbered; [apply pretty_digits| |].
  - specialize (Hbound _ Hin).
    by rewrite copyNumberIn_numbered in Hbound by apply pretty_digits.
  - pose proof (filter_length_le
      (laterCopy b (copyNumberOf (pretty (1 + countOthers (b +:+ "-copy"))%N)))
      taken). lia.
Qed.

(** Whatever the name, the recursion ends with a name before the fuel
    does, as long as the number at the end of the name is within the
    bound. *)
Lemma createName_ends (name : string) :
  (copyNumberIn name ≤ bound)%N →
  ∃ r, createName (length taken + 3) countOthers countAgain name = Named r.
Proof.
  intros Hname.
  destruct (Regex.matchEnd Regex.copyNumber name) as [m|] eqn:H1.
  { apply matchEnd_Some in H1 as [Hm [a ->]].
    apply copyNumber_inv in Hm as (ds & -> & Hd).
    rewrite copyNumberIn_numbered in Hname by done.
    apply createName_numbered; [done|done|].
    pose proof (filter_length_le (laterCopy a (copyNumberOf ds)) taken). lia. }
  destruct (Regex.matchEnd Regex.copy name) as [m|] eqn:H2.
  { apply matchEnd_Some in H2 as [Hm [a ->]].
    apply bool_decide_eq_true in Hm as ->.
    apply createName_copy. lia. }
  replace (length taken + 3) with (S (length taken + 2)) by lia.
  destruct (decide (countOthers name = 0%N)) as [Hk|Hk].
  { eexists. by apply createName_unused. }
  simpl. rewrite copyName_no_suffix by (done || lia).
  pose proof (Hmost name) as Hle.
  case_decide.
  - unfold printNumber. rewrite decide_True by lia. simpl.
    case_decide as Hc; [|by eexists].
    destruct (Htaken _ Hc) as [_ Hin].
    apply createName_numbered; [apply pretty_digits| |].
    + specialize (Hbound _ Hin).
      by rewrite copyNumberIn_numbered in Hbound by apply pretty_digits.
    + pose proof (filter_length_le
        (laterCopy name (copyNumberOf (pretty (countOthers name)))) taken). lia.
  - case_decide as Hc; [|by eexists]. apply createName_copy. lia.
Qed.
End Recursion.

Lemma createName_more_fuel (countOthers countAgain : string → N)
    (fuel fuel' : nat) (name : string) :
  createName fuel countOthers countAgain name ≠ StillRecursing →
  fuel ≤ fuel' →
  createName fuel' countOthers countAgain name
  = createName fuel countOthers countAgain name.
Proof.
  revert fuel' name. induction fuel as [|fuel IH]; intros fuel' name Hr Hle;
    [done|].
  destruct fuel' as [|fuel']; [lia|]. simpl in *.
  destruct (copyName _ _) as [name'|]; [|done].
  case_decide; [|done]. apply IH; [done|lia].
Qed.

Lemma count_filter_nonzero {A} (f : A → bool) (xs : list A) :
  N.of_nat (length (List.filter f xs)) ≠ 0%N → ∃ x, x ∈ xs ∧ f x = true.
Proof.
  induction xs as [|x xs IH]; simpl; [done|].
  destruct (f x) eqn:Hfx.
  - intros _. exists x. split; [apply list_elem_of_here|done].
  - intros (y & Hy & Hfy)%IH. exists y. split; [by right|done].
Qed.

Lemma countHandleOfOthers_taken (db : list Product) (x id : string) :
  countHandleOfOthers db x id ≠ 0%N →
  x ∈ (λ p, default EmptyString (prodHandle p)) <$> db.
Proof.
  intros (p & Hp & Hf)%count_filter_nonzero.
  apply andb_true_iff in Hf as [Hf _]. apply bool_decide_eq_true in Hf.
  apply list_elem_of_fmap. exists p. by rewrite Hf.
Qed.

Lemma countTitle_taken (db : list Product) (x : string) :
  countTitle db x ≠ 0%N →
  x ∈ (λ p, default EmptyString (prodTitle p)) <$> db.
Proof.
  intros (p & Hp & Hf)%count_filter_nonzero.
  apply bool_decide_eq_true in Hf.
  apply list_elem_of_fmap. exists p. by rewrite Hf.
Qed.

Lemma countTitleOfOthers_new (db : list Product) (x id : string) :
  (∀ p, p ∈ db → prodId p ≠ id) →
  countTitleOfOthers db x id = countTitle db x.
Proof.
  intros Hnew. unfold countTitleOfOthers, countTitle. do 2 f_equal.
  induction db as [|p db IH]; [done|]. simpl.
  rewrite (bool_decide_eq_false_2 (prodId p = id))
    by (apply Hnew, list_elem_of_here).
  rewrite andb_true_r, IH; [done|]. intros q Hq. apply Hnew. by right.
Qed.

Lemma countHandleOfOthers_le (db : list Product) (x id : string) :
  (countHandleOfOthers db x id ≤ N.of_nat (length db))%N.
Proof.
  unfold countHandleOfOthers.
  pose proof (filter_length_le
    (λ p, bool_decide (prodHandle p = Some x)
          && negb (bool_decide (prodId p = id))) db). lia.
Qed.

Lemma countTitleOfOthers_le (db : list Product) (x id : string) :
  (countTitleOfOthers db x id ≤ N.of_nat (length db))%N.
Proof.
  unfold countTitleOfOthers.
  pose proof (filter_length_le
    (λ p, bool_decide (prodTitle p = Some x)
          && negb (bool_decide (prodId p = id))) db). lia.
Qed.

(** X15: [createHandle] returns a handle, after fewer than [n + 3] nested
    calls on a collection of [n] products, when the numbers stay within
    the safe integers: no handle of the collection and not the handle
    given ends in a copy number above [bound], where [bound] is at least
    one and [bound + n] at most [2^53 - 1]. *)
Theorem createHandle_ends (db : list Product) (productHandle : option string)
    (productId : string) (bound : N) :
  (1 ≤ bound)%N →
  (bound + N.of_nat (length db) ≤ maxSafeInteger)%N →
  (copyNumberIn (default EmptyString productHandle) ≤ bound)%N →
  handleNumbersWithin bound db →
  ∃ handle, ∀ fuel, length db + 3 ≤ fuel →
    createHandle fuel db productHandle productId = Named handle.
Proof.
  intros Hone Hsafe Hgiven Hdb.
  destruct (createName_ends ((λ p, default EmptyString (prodHandle p)) <$> db)
              (λ x, countHandleOfOthers db x productId)
              (λ x, countHandleOfOthers db x productId)
              (λ x Hx, conj Hx (countHandleOfOthers_taken db x productId Hx))
              bound (N.of_nat (length db)) Hone Hsafe
              (λ x, countHandleOfOthers_le db x productId))
    with (name := default EmptyString productHandle) as [r Hr]; [|done|].
  { intros x (p & -> & Hp)%list_elem_of_fmap.
    unfold handleNumbersWithin in Hdb. rewrite Forall_forall in Hdb.
    by apply Hdb. }
  rewrite length_fmap in Hr.
  exists r. intros fuel Hfuel.
  rewrite createHandle_createName, <- Hr.
  apply createName_more_fuel; [by rewrite Hr|done].
Qed.

Lemma createHandle_ends_witness :
  ((1 ≤ 2)%N ∧ (2 + N.of_nat (length shirts) ≤ maxSafeInteger)%N ∧
   (copyNumberIn (default EmptyString (Some "shirt")) ≤ 2)%N ∧
   handleNumbersWithin 2 shirts) ∧
  createHandle (length shirts + 3) shirts (Some "shirt") "new"
    = Named "shirt-copy-3" ∧
  ∃ handle, ∀ fuel, length shirts + 3 ≤ fuel →
    createHandle fuel shirts (Some "shirt") "new" = Named handle.
Proof.
  assert (1 ≤ 2)%N as Hone by lia.
  assert (2 + N.of_nat (length shirts) ≤ maxSafeInteger)%N as Hsafe
    by (vm_compute; discriminate).
  assert (copyNumberIn (default EmptyString (Some "shirt")) ≤ 2)%N as Hgiven
    by (vm_compute; discriminate).
  assert (handleNumbersWithin 2 shirts) as Hdb
    by (repeat constructor; vm_compute; discriminate).
  split; [by split_and!|]. split; [vm_compute; reflexivity|].
  exact (createHandle_ends shirts (Some "shirt") "new" 2 Hone Hsafe Hgiven Hdb).
Defined.

(** X16: [createTitle] returns a title, after fewer than [n + 3] nested
    calls on a collection of [n] products, when no product of the
    collection has the id it is called with, as for the new id of a
    clone, and the numbers stay within the safe integers: no title of the
    collection and not the title given ends in a copy number above
    [bound], where [bound] is at least one and [bound + n] at most
    [2^53 - 1]. *)
Theorem createTitle_ends_for_new_product (db : list Product)
    (newTitle : option string) (productId : string) (bound : N) :
  (∀ p, p ∈ db → prodId p ≠ productId) →
  (1 ≤ bound)%N →
  (bound + N.of_nat (length db) ≤ maxSafeInteger)%N →
  (copyNumberIn (default EmptyString newTitle) ≤ bound)%N →
  titleNumbersWithin bound db →
  ∃ title, ∀ fuel, length db + 3 ≤ fuel →
    createTitle fuel db newTitle productId = Named title.
Proof.
  intros Hnew Hone Hsafe Hgiven Hdb.
  destruct (createName_ends ((λ p, default EmptyString (prodTitle p)) <$> db)
              (λ x, countTitleOfOthers db x productId) (countTitle db))
    with (bound := bound) (most := N.of_nat (length db))
         (name := default EmptyString newTitle) as [r Hr]; try done.
  { intros x Hx. split.
    - by rewrite countTitleOfOthers_new.
    - by apply countTitle_taken. }
  { intros x. apply countTitleOfOthers_le. }
  { intros x (p & -> & Hp)%list_elem_of_fmap.
    unfold titleNumbersWithin in Hdb. rewrite Forall_forall in Hdb.
    by apply Hdb. }
  rewrite length_fmap in Hr.
  exists r. intros fuel Hfuel.
  rewrite createTitle_createName, <- Hr.
  apply createName_more_fuel; [by rewrite Hr|done].
Qed.

Lemma createTitle_ends_for_new_product_witness :
  ((∀ p, p ∈ shirts → prodId p ≠ "new") ∧
   (1 ≤ 2)%N ∧ (2 + N.of_nat (length shirts) ≤ maxSafeInteger)%N ∧
   (copyNumberIn (default EmptyString (Some "Shirt")) ≤ 2)%N ∧
   titleNumbersWithin 2 shirts) ∧
  createTitle (length shirts + 3) shirts (Some "Shirt") "new"
    = Named "Shirt-copy-3" ∧
  ∃ title, ∀ fuel, length shirts + 3 ≤ fuel →
    createTitle fuel shirts (Some "Shirt") "new" = Named title.
Proof.
  assert (∀ p, p ∈ shirts → prodId p ≠ "new") as Hnew.
  { intros p Hp. unfold shirts in Hp.
    repeat (apply elem_of_cons in Hp as [->|Hp]; [discriminate|]).
    by apply elem_of_nil in Hp. }
  assert (1 ≤ 2)%N as Hone by lia.
  assert (2 + N.of_nat (length shirts) ≤ maxSafeInteger)%N as Hsafe
    by (vm_compute; discriminate).
  assert (copyNumberIn (default EmptyString (Some "Shirt")) ≤ 2)%N as Hgiven
    by (vm_compute; discriminate).
  assert (titleNumbersWithin 2 shirts) as Hdb
    by (repeat constructor; vm_compute; discriminate).
  split; [by split_and!|]. split; [vm_compute; reflexivity|].
  exact (createTitle_ends_for_new_product shirts (Some "Shirt") "new" 2
           Hnew Hone Hsafe Hgiven Hdb).
Defined.

Lemma copy_naming_scheme_witness :
  (0 < 2)%N ∧
  copyName "Shirt" 2 = Some "Shirt-copy-2" ∧
  copyName "Shirt-copy" 2 = Some "Shirt-copy-3" ∧
  copyName "Shirt-copy-007" 2 = Some "Shirt-copy-9" ∧
  copyName ("Shirt" +:+ "-copy-" +:+ "007") 2
  = (number ← printNumber (copyNumberOf "007" + 2)%N;
     Some ("Shirt" +:+ "-copy-" +:+ number)).
Proof.
  assert (0 < 2)%N as Hk by lia.
  split; [exact Hk|]. do 3 (split; [vm_compute; reflexivity|]).
  exact (proj2 (proj2 (copy_naming_scheme "Shirt" "Shirt" "007" 2 Hk)) eq_refl).
Defined.

(** ** The names that come back *)

Section Returned.
Context (countOthers countAgain : string → N).

Lemma createName_numbered_returns (fuel : nat) (b ds r : string) :
  Regex.digits ds = true →
  createName fuel countOthers countAgain (b +:+ "-copy-" +:+ ds) = Named r →
  r = b +:+ "-copy-" +:+ ds ∨
  ∃ m, (copyNumberOf ds < m ≤ maxSafeInteger)%N ∧
       r = b +:+ "-copy-" +:+ pretty m.
Proof.
  revert ds. induction fuel as [|fuel IH]; intros ds Hd; [done|].
  destruct (decide (countOthers (b +:+ "-copy-" +:+ ds) = 0%N)) as [Hk|Hk].
  - simpl. rewrite Hk, copyName_unused. case_decide.
    + by apply IH.
    + intros [= <-]. by left.
  - simpl. rewrite copyName_numbered by (done || lia).
    unfold printNumber. case_decide as Hsafe; [|done]. simpl.
    set (m := (copyNumberOf ds + countOthers (b +:+ "-copy-" +:+ ds))%N) in *.
    pose proof (copyNumberOf_pos ds).
    case_decide.
    + intros Hr. apply IH in Hr; [|apply pretty_digits].
      rewrite copyNumberOf_pretty in Hr by lia. right.
      destruct Hr as [->|(m' & Hm' & ->)].
      * exists m. split; [lia|done].
      * exists m'. split; [lia|done].
    + intros [= <-]. right. exists m. split; [lia|done].
Qed.

Lemma createName_copy_returns (fuel : nat) (b r : string) :
  createName fuel countOthers countAgain (b +:+ "-copy") = Named r →
  r = b +:+ "-copy" ∨
  ∃ m, (1 < m ≤ maxSafeInteger)%N ∧ r = b +:+ "-copy-" +:+ pretty m.
Proof.
  induction fuel as [|fuel IH]; [done|].
  destruct (decide (countOthers (b +:+ "-copy") = 0%N)) as [Hk|Hk].
  - simpl. rewrite Hk, copyName_unused. case_decide; [done|].
    intros [= <-]. by left.
  - simpl. rewrite copyName_copy by lia.
    unfold printNumber. case_decide as Hsafe; [|done]. simpl.
    set (m := (1 + countOthers (b +:+ "-copy"))%N) in *.
    case_decide.
    + intros Hr. apply createName_numbered_returns in Hr; [|apply pretty_digits].
      rewrite copyNumberOf_pretty in Hr by lia. right.
      destruct Hr as [->|(m' & Hm' & ->)].
      * exists m. split; [lia|done].
      * exists m'. split; [lia|done].
    + intros [= <-]. right. exists m. split; [lia|done].
Qed.

Lemma createName_plain_returns (fuel : nat) (name r : string) :
  plainName name →
  createName fuel countOthers countAgain name = Named r →
  r = name ∨ r = name +:+ "-copy" ∨
  ∃ m, (1 < m ≤ maxSafeInteger)%N ∧ r = name +:+ "-copy-" +:+ pretty m.
Proof.
  intros Hplain. destruct (plainName_no_suffix name Hplain) as [H1 H2].
  induction fuel as [|fuel IH]; [done|].
  destruct (decide (countOthers name = 0%N)) as [Hk|Hk].
  - simpl. rewrite Hk, copyName_unused. case_decide; [done|].
    intros [= <-]. by left.
  - simpl. rewrite copyName_no_suffix by (done || lia).
    case_decide.
    + unfold printNumber. case_decide as Hsafe; [|done]. simpl.
      case_decide.
      * intros Hr. apply createName_numbered_returns in Hr; [|apply pretty_digits].
        rewrite copyNumberOf_pretty in Hr by lia. right. right.
        destruct Hr as [->|(m' & Hm' & ->)].
        -- by exists (countOthers name).
        -- exists m'. split; [lia|done].
      * intros [= <-]. right. right. by exists (countOthers name).
    + case_decide.
      * intros Hr. apply createName_copy_returns in Hr.
        destruct Hr as [->|Hr]; [by right; left|by right; right].
      * intros [= <-]. by right; left.
Qed.
End Returned.

(** Beyond the safe integers the embedding gives no name: a handle with
    the largest safe integer as its copy number, held by one other
    product. *)
Example number_beyond_safe_integers :
  createHandle 4
    [ {| prodId := "p1"; prodTitle := None;
         prodHandle := Some "x-copy-9007199254740991" |} ]
    (Some "x-copy-9007199254740991") "new"
  = BeyondSafeIntegers.
Proof. vm_compute. reflexivity. Qed.

(** X17: as long as every number that is put into a name is a safe
    integer, so that the call is within the embedding and comes to a
    name, the name [createTitle] or [createHandle] returns is the name it
    was given or a copy of it: for a name without copy suffix, the name
    with [-copy] or with [-copy-] and a number above one; for a name that
    ends in [-copy], the name with a number above one; for a name that
    ends in [-copy-<digits>], the same name with a higher number in place
    of the digits. The numbers are at most [2^53 - 1]. *)
Theorem returned_name_is_a_later_copy (fuel : nat) (db : list Product)
    (name productId r : string) :
  createTitle fuel db (Some name) productId = Named r ∨
  createHandle fuel db (Some name) productId = Named r →
  (plainName name →
   r = name ∨ r = name +:+ "-copy" ∨
   ∃ m, (1 < m ≤ maxSafeInteger)%N ∧ r = name +:+ "-copy-" +:+ pretty m) ∧
  (∀ b, name = b +:+ "-copy" →
   r = name ∨
   ∃ m, (1 < m ≤ maxSafeInteger)%N ∧ r = b +:+ "-copy-" +:+ pretty m) ∧
  (∀ b ds, Regex.digits ds = true → name = b +:+ "-copy-" +:+ ds →
   r = name ∨
   ∃ m, (copyNumberOf ds < m ≤ maxSafeInteger)%N ∧
        r = b +:+ "-copy-" +:+ pretty m).
Proof.
  rewrite createTitle_createName, createHandle_createName. simpl.
  intros [Hr|Hr]; split_and!.
  all: try (intros Hplain; by eapply createName_plain_returns).
  all: try (intros b ->; by eapply createName_copy_returns).
  all: intros b ds Hd ->; by eapply createName_numbered_returns.
Qed.

Lemma returned_name_is_a_later_copy_witness :
  (createTitle 4 shirts (Some "Shirt-copy") "new" = Named "Shirt-copy-3" ∨
   createHandle 4 shirts (Some "Shirt-copy") "new" = Named "Shirt-copy-3") ∧
  ("Shirt-copy-3" = "Shirt-copy" ∨
   ∃ m, (1 < m ≤ maxSafeInteger)%N ∧
        "Shirt-copy-3" = "Shirt" +:+ "-copy-" +:+ pretty m).
Proof.
  assert (createTitle 4 shirts (Some "Shirt-copy") "new" = Named "Shirt-copy-3" ∨
          createHandle 4 shirts (Some "Shirt-copy") "new" = Named "Shirt-copy-3")
    as Hrun by (left; vm_compute; reflexivity).
  split; [exact Hrun|].
  exact (proj1 (proj2 (returned_name_is_a_later_copy 4 shirts "Shirt-copy" "new"
                         "Shirt-copy-3" Hrun)) "Shirt" eq_refl).
Defined.
